(** * Maven package README server: cache, retry policy and version resolver

    A shallow embedding of [src/services/cache.ts] (the classes
    [CacheService] and [VersionResolver]) and of
    [src/utils/error-handler.ts] (the class [ErrorHandler]).

    Conventions of the embedding.
    - A JavaScript string is a [string]: a sequence of 8-bit code units.
      Every literal of the source is ASCII; the only line terminators in
      that range are LF and CR, the only white space is TAB, LF, VT, FF, CR,
      SPACE and NBSP.
    - Time stamps, durations, sizes and attempt counters are integers ([Z]);
      the source holds them in JavaScript numbers and never produces a
      fraction from an integer input.  The numeric components of a version
      are the integers their digits denote; the runtime agrees with that
      below 2^53.
    - A [Map] is an association list in insertion order with pairwise
      distinct keys ([NoDup] of the keys is an invariant, proved below).
    - [Date.now()] is an explicit argument of every function that reads the
      clock, one argument per call site. *)

From Stdlib Require Import ZArith List String Ascii Bool Lia.
Import ListNotations.

Local Open Scope string_scope.
Local Open Scope Z_scope.

(** ** JavaScript strings *)

Module Js.

Definition codeOf (c : ascii) : N := N_of_ascii c.

(** Truthiness of a string: only the empty string is falsy. *)
Definition truthy (s : string) : bool :=
  match s with
  | EmptyString => false
  | String _ _ => true
  end.

Definition isDigit (c : ascii) : bool :=
  (48 <=? codeOf c)%N && (codeOf c <=? 57)%N.

Definition isUpper (c : ascii) : bool :=
  (65 <=? codeOf c)%N && (codeOf c <=? 90)%N.

Definition isLower (c : ascii) : bool :=
  (97 <=? codeOf c)%N && (codeOf c <=? 122)%N.

Definition isAlnum (c : ascii) : bool :=
  isDigit c || isUpper c || isLower c.

(** Line terminators: the characters the regular expression [.] refuses. *)
Definition isLineTerminator (c : ascii) : bool :=
  (codeOf c =? 10)%N || (codeOf c =? 13)%N.

(** White space as [String.prototype.trim] sees it. *)
Definition isSpace (c : ascii) : bool :=
  ((9 <=? codeOf c)%N && (codeOf c <=? 13)%N)
  || (codeOf c =? 32)%N || (codeOf c =? 160)%N.

Fixpoint all (p : ascii -> bool) (s : string) : bool :=
  match s with
  | EmptyString => true
  | String c s' => p c && all p s'
  end.

Fixpoint keep (p : ascii -> bool) (s : string) : string :=
  match s with
  | EmptyString => EmptyString
  | String c s' => if p c then String c (keep p s') else keep p s'
  end.

Definition startsWith (s : string) (c : ascii) : bool :=
  match s with
  | String d _ => Ascii.eqb d c
  | EmptyString => false
  end.

Fixpoint endsWith (s : string) (c : ascii) : bool :=
  match s with
  | EmptyString => false
  | String d EmptyString => Ascii.eqb d c
  | String _ s' => endsWith s' c
  end.

Fixpoint trimStart (s : string) : string :=
  match s with
  | String c s' => if isSpace c then trimStart s' else s
  | EmptyString => EmptyString
  end.

Fixpoint trimEnd (s : string) : string :=
  match s with
  | EmptyString => EmptyString
  | String c s' =>
      match trimEnd s' with
      | EmptyString => if isSpace c then EmptyString else String c EmptyString
      | r => String c r
      end
  end.

Definition trim (s : string) : string := trimEnd (trimStart s).

(** [s.split(sep)] for a one-character separator: never the empty list. *)
Fixpoint split (sep : ascii) (s : string) : list string :=
  match s with
  | EmptyString => [EmptyString]
  | String c s' =>
      if Ascii.eqb c sep then EmptyString :: split sep s'
      else match split sep s' with
           | piece :: pieces => String c piece :: pieces
           | [] => [String c EmptyString]
           end
  end.

(** [parts.join(sep)]. *)
Fixpoint join (sep : string) (parts : list string) : string :=
  match parts with
  | [] => EmptyString
  | [p] => p
  | p :: ps => p ++ sep ++ join sep ps
  end.

(** [s.includes(needle)]. *)
Fixpoint includes (s needle : string) : bool :=
  String.prefix needle s
  || match s with
     | EmptyString => false
     | String _ s' => includes s' needle
     end.

(** [c.toLowerCase()] on one code unit: the ASCII capitals and the Latin-1
    capitals (all of 192..222 but the multiplication sign) move up by 32. *)
Definition lowerChar (c : ascii) : ascii :=
  let n := codeOf c in
  if ((65 <=? n)%N && (n <=? 90)%N)
     || ((192 <=? n)%N && (n <=? 222)%N && negb (n =? 215)%N)
  then ascii_of_N (n + 32)
  else c.

(** [s.toLowerCase()]. *)
Fixpoint toLowerCase (s : string) : string :=
  match s with
  | EmptyString => EmptyString
  | String c s' => String (lowerChar c) (toLowerCase s')
  end.

End Js.

(** ** The TTL cache: [class CacheService] *)

Module CacheService.

Section Store.

(** The payload type [T] of [CacheEntry<T>]. *)
Variable T : Type.

Record CacheEntry : Type := mkEntry {
  data : T;
  timestamp : Z;
  ttl : Z
}.

(** [Map<string, CacheEntry<unknown>>], in insertion order. *)
Definition JsMap : Type := list (string * CacheEntry).

Record t : Type := mkCache {
  cache : JsMap;
  defaultTtl : Z;
  maxSize : Z
}.

Record CacheOptions : Type := mkOptions {
  opt_ttl : option Z;
  opt_maxSize : option Z
}.

Definition orElse {A : Type} (o : option A) (d : A) : A :=
  match o with
  | Some a => a
  | None => d
  end.

(** [constructor(options)]. *)
Definition create (options : CacheOptions) : t :=
  {| cache := [];
     defaultTtl := orElse (opt_ttl options) 3600000;
     maxSize := orElse (opt_maxSize options) 100 |}.

(** *** Operations of [Map] *)

Definition keys (m : JsMap) : list string := map fst m.

Definition size (m : JsMap) : Z := Z.of_nat (List.length m).

Fixpoint mapGet (k : string) (m : JsMap) : option CacheEntry :=
  match m with
  | [] => None
  | (k', e) :: m' => if String.eqb k' k then Some e else mapGet k m'
  end.

Definition mapHas (k : string) (m : JsMap) : bool :=
  match mapGet k m with
  | Some _ => true
  | None => false
  end.

Fixpoint mapDelete (k : string) (m : JsMap) : JsMap :=
  match m with
  | [] => []
  | (k', e) :: m' =>
      if String.eqb k' k then mapDelete k m' else (k', e) :: mapDelete k m'
  end.

(** [Map.prototype.set]: an existing key keeps its place in the iteration
    order and only its value changes; a new key goes to the end. *)
Fixpoint mapSet (k : string) (e : CacheEntry) (m : JsMap) : JsMap :=
  match m with
  | [] => [(k, e)]
  | (k', e') :: m' =>
      if String.eqb k' k then (k', e) :: m' else (k', e') :: mapSet k e m'
  end.

(** [this.cache.keys().next().value]. *)
Definition firstKey (m : JsMap) : option string :=
  match m with
  | [] => None
  | (k, _) :: _ => Some k
  end.

(** *** Expiry *)

(** The test [now - entry.timestamp > entry.ttl] of [get], [has] and
    [cleanup]. *)
Definition expired (now : Z) (e : CacheEntry) : bool :=
  now - timestamp e >? ttl e.

Definition live (now : Z) (e : CacheEntry) : bool := negb (expired now e).

(** [cleanup()]: one pass over the entries, deleting each expired key from
    the map. *)
Definition sweep (now : Z) (m : JsMap) : JsMap :=
  fold_left
    (fun acc (p : string * CacheEntry) =>
       if expired now (snd p) then mapDelete (fst p) acc else acc)
    m m.

Definition cleanup (now : Z) (c : t) : t :=
  {| cache := sweep now (cache c);
     defaultTtl := defaultTtl c;
     maxSize := maxSize c |}.

(** The capacity handling at the head of [set]: the sweep, then the
    eviction of the first key when the map is still full.  The guard
    [if (oldestKey)] is a truthiness test. *)
Definition evictOldest (m : JsMap) : JsMap :=
  match firstKey m with
  | Some oldestKey =>
      if Js.truthy oldestKey then mapDelete oldestKey m else m
  | None => m
  end.

Definition makeRoom (now : Z) (bound : Z) (m : JsMap) : JsMap :=
  if size m >=? bound then
    let swept := sweep now m in
    if size swept >=? bound then evictOldest swept else swept
  else m.

(** [set(key, data, ttl?)].  [stamp] is the clock reading taken for the
    entry, [now] the later one taken inside [cleanup]. *)
Definition set (stamp now : Z) (key : string) (value : T)
    (ttl_arg : option Z) (c : t) : t :=
  let entry :=
    {| data := value;
       timestamp := stamp;
       ttl := orElse ttl_arg (defaultTtl c) |} in
  {| cache := mapSet key entry (makeRoom now (maxSize c) (cache c));
     defaultTtl := defaultTtl c;
     maxSize := maxSize c |}.

(** [get(key)]: the value read, or [None] for [null], and the cache after
    the call. *)
Definition get (now : Z) (key : string) (c : t) : option T * t :=
  match mapGet key (cache c) with
  | None => (None, c)
  | Some entry =>
      if now - timestamp entry >? ttl entry then
        (None,
         {| cache := mapDelete key (cache c);
            defaultTtl := defaultTtl c;
            maxSize := maxSize c |})
      else (Some (data entry), c)
  end.

(** [has(key)]. *)
Definition has (now : Z) (key : string) (c : t) : bool * t :=
  match mapGet key (cache c) with
  | None => (false, c)
  | Some entry =>
      if now - timestamp entry >? ttl entry then
        (false,
         {| cache := mapDelete key (cache c);
            defaultTtl := defaultTtl c;
            maxSize := maxSize c |})
      else (true, c)
  end.

(** [delete(key)]. *)
Definition delete (key : string) (c : t) : bool * t :=
  (mapHas key (cache c),
   {| cache := mapDelete key (cache c);
      defaultTtl := defaultTtl c;
      maxSize := maxSize c |}).

(** [clear()]. *)
Definition clear (c : t) : t :=
  {| cache := []; defaultTtl := defaultTtl c; maxSize := maxSize c |}.

(** The operations that can change the store, with the clock readings
    they take. *)
Inductive Operation : Type :=
| OpSet (stamp now : Z) (key : string) (value : T) (ttl_arg : option Z)
| OpGet (now : Z) (key : string)
| OpHas (now : Z) (key : string)
| OpDelete (key : string)
| OpClear
| OpCleanup (now : Z).

Definition step (c : t) (op : Operation) : t :=
  match op with
  | OpSet stamp now key value ttl_arg => set stamp now key value ttl_arg c
  | OpGet now key => snd (get now key c)
  | OpHas now key => snd (has now key c)
  | OpDelete key => snd (delete key c)
  | OpClear => clear c
  | OpCleanup now => cleanup now c
  end.

Definition run (ops : list Operation) (c : t) : t :=
  fold_left step ops c.

(** The keys an operation stores under. *)
Definition storesUnder (op : Operation) : list string :=
  match op with
  | OpSet _ _ key _ _ => [key]
  | _ => []
  end.

End Store.

Arguments mkEntry {T} _ _ _.
Arguments data {T} _.
Arguments timestamp {T} _.
Arguments ttl {T} _.
Arguments mkCache {T} _ _ _.
Arguments cache {T} _.
Arguments defaultTtl {T} _.
Arguments maxSize {T} _.
Arguments keys {T} _.
Arguments size {T} _.
Arguments mapGet {T} _ _.
Arguments mapHas {T} _ _.
Arguments mapDelete {T} _ _.
Arguments mapSet {T} _ _ _.
Arguments firstKey {T} _.
Arguments expired {T} _ _.
Arguments live {T} _ _.
Arguments sweep {T} _ _.
Arguments cleanup {T} _ _.
Arguments evictOldest {T} _.
Arguments makeRoom {T} _ _ _.
Arguments set {T} _ _ _ _ _ _.
Arguments get {T} _ _ _.
Arguments has {T} _ _ _.
Arguments delete {T} _ _.
Arguments clear {T} _.
Arguments create {T} _.
Arguments OpSet {T} _ _ _ _ _.
Arguments OpGet {T} _ _.
Arguments OpHas {T} _ _.
Arguments OpDelete {T} _.
Arguments OpClear {T}.
Arguments OpCleanup {T} _.
Arguments step {T} _ _.
Arguments run {T} _ _.
Arguments storesUnder {T} _.

End CacheService.

(** ** Cache keys: the static key generators of [CacheService] *)

Module CacheKeys.

Definition base64Alphabet : string :=
  "ABCDEFGHIJKLMNOPQRSTUVWXYZabcdefghijklmnopqrstuvwxyz0123456789+/".

Definition base64Char (i : N) : ascii :=
  match String.get (N.to_nat i) base64Alphabet with
  | Some c => c
  | None => "="%char
  end.

(** [Buffer.toString('base64')] on the bytes of the string: three bytes
    give four characters, a short last group is padded with [=]. *)
Fixpoint base64 (bytes : list N) : string :=
  match bytes with
  | a :: b :: c :: rest =>
      let n := (a * 65536 + b * 256 + c)%N in
      String (base64Char (N.shiftr n 18))
        (String (base64Char (N.land (N.shiftr n 12) 63))
           (String (base64Char (N.land (N.shiftr n 6) 63))
              (String (base64Char (N.land n 63)) (base64 rest))))
  | [a; b] =>
      let n := (a * 65536 + b * 256)%N in
      String (base64Char (N.shiftr n 18))
        (String (base64Char (N.land (N.shiftr n 12) 63))
           (String (base64Char (N.land (N.shiftr n 6) 63)) "="))
  | [a] =>
      let n := (a * 65536)%N in
      String (base64Char (N.shiftr n 18))
        (String (base64Char (N.land (N.shiftr n 12) 63)) "==")
  | [] => EmptyString
  end.

(** The UTF-8 encoding of one code unit: a code unit below 128 is one
    byte, a code unit from 128 to 255 is the two bytes [110xxxxx] and
    [10xxxxxx]. *)
Definition utf8Unit (c : ascii) : list N :=
  let n := Js.codeOf c in
  if (n <? 128)%N then [n]
  else [(192 + N.shiftr n 6)%N; (128 + N.land n 63)%N].

(** [Buffer.from(s, 'utf8')]: the string is held as its UTF-8 bytes. *)
Fixpoint utf8Bytes (s : string) : list N :=
  match s with
  | EmptyString => []
  | String c s' => (utf8Unit c ++ utf8Bytes s')%list
  end.

Definition generateVersionsKey (groupId artifactId : string) : string :=
  "versions:" ++ groupId ++ ":" ++ artifactId.

Definition generatePackageExistsKey (groupId artifactId : string) : string :=
  "pkg_exists:" ++ groupId ++ ":" ++ artifactId.

Definition generatePomKey (groupId artifactId version : string) : string :=
  "pom:" ++ groupId ++ ":" ++ artifactId ++ ":" ++ version.

(** [version ?? 'latest']: only an absent version is replaced. *)
Definition generatePackageInfoKey (groupId artifactId : string)
    (version : option string) : string :=
  "pkg_info:" ++ groupId ++ ":" ++ artifactId ++ ":"
  ++ match version with Some v => v | None => "latest" end.

Definition generatePackageReadmeKey (groupId artifactId : string)
    (version : option string) : string :=
  "pkg_readme:" ++ groupId ++ ":" ++ artifactId ++ ":"
  ++ match version with Some v => v | None => "latest" end.

Section SearchKey.

(** JavaScript numbers and [Number.prototype.toString] belong to the
    runtime; the key generator only renders its numeric arguments. *)
Variable JsNumber : Type.
Variable numberToString : JsNumber -> string.

Definition renderOr (n : option JsNumber) (fallback : string) : string :=
  match n with
  | Some x => numberToString x
  | None => fallback
  end.

(** [generateSearchKey(query, limit?, quality?, popularity?)]. *)
Definition generateSearchKey (query : string)
    (limit quality popularity : option JsNumber) : string :=
  let params :=
    Js.join ":"
      [query; renderOr limit "20"; renderOr quality "any";
       renderOr popularity "any"] in
  let hash :=
    String.substring 0 16 (Js.keep Js.isAlnum (base64 (utf8Bytes params))) in
  "search:" ++ hash.

End SearchKey.

(** A rendering for the decimal literals of the examples: a number is
    given by the digits [Number.prototype.toString] prints for it. *)
Inductive Decimal : Type :=
| Whole (digits : string)
| Fraction (whole frac : string).

Definition printDecimal (d : Decimal) : string :=
  match d with
  | Whole w => w
  | Fraction w f => w ++ "." ++ f
  end.

End CacheKeys.

(** ** Errors and the retry policy: [class ErrorHandler] *)

Module ErrorHandler.

(** The classes of [types/index.ts] that extend [PackageReadmeMcpError]. *)
Inductive ErrorClass : Type :=
| PackageReadmeMcpErrorClass
| PackageNotFoundErrorClass
| VersionNotFoundErrorClass
| RateLimitErrorClass
| NetworkErrorClass
| InvalidPackageNameErrorClass.

(** [PackageReadmeMcpError]; its field [details] is never read by the code
    modelled here and is left out. *)
Record McpError : Type := mkMcpError {
  errorClass : ErrorClass;
  message : string;
  code : string;
  statusCode : option Z
}.

Definition PackageNotFoundError (packageName : string) : McpError :=
  {| errorClass := PackageNotFoundErrorClass;
     message := "Package '" ++ packageName ++ "' not found";
     code := "PACKAGE_NOT_FOUND";
     statusCode := Some 404 |}.

Definition VersionNotFoundError (packageName version : string) : McpError :=
  {| errorClass := VersionNotFoundErrorClass;
     message :=
       "Version '" ++ version ++ "' of package '" ++ packageName
       ++ "' not found";
     code := "VERSION_NOT_FOUND";
     statusCode := Some 404 |}.

Definition RateLimitError (service : string) : McpError :=
  {| errorClass := RateLimitErrorClass;
     message := "Rate limit exceeded for " ++ service;
     code := "RATE_LIMIT_EXCEEDED";
     statusCode := Some 429 |}.

Definition NetworkError (msg : string) : McpError :=
  {| errorClass := NetworkErrorClass;
     message := "Network error: " ++ msg;
     code := "NETWORK_ERROR";
     statusCode := None |}.

(** What a JavaScript [catch] can receive. *)
Inductive Thrown : Type :=
| ThrownMcp (e : McpError)
| ThrownError (name msg : string)
| ThrownValue (rendering : string).

(** The value of an unassigned [let lastError: unknown]. *)
Definition undefinedValue : Thrown := ThrownValue "undefined".

Definition isTyped (e : Thrown) : bool :=
  match e with
  | ThrownMcp _ => true
  | _ => false
  end.

(** [handleApiError(error, context)]: it never returns; the result is the
    error it throws. *)
Definition handleApiError (error : Thrown) (context : string) : McpError :=
  match error with
  | ThrownMcp e => e
  | ThrownError name msg =>
      if String.eqb name "TypeError" && Js.includes msg "fetch" then
        NetworkError ("Failed to fetch data from " ++ context)
      else if Js.includes msg "timeout" || Js.includes msg "ETIMEDOUT" then
        NetworkError ("Request timeout for " ++ context)
      else if Js.includes msg "429" || Js.includes msg "rate limit" then
        RateLimitError context
      else NetworkError msg
  | ThrownValue rendering =>
      {| errorClass := PackageReadmeMcpErrorClass;
         message := "Unknown error in " ++ context ++ ": " ++ rendering;
         code := "UNKNOWN_ERROR";
         statusCode := None |}
  end.

(** The test of line 54-55: a typed error whose status is a client error
    other than 429. *)
Definition isClientError (error : Thrown) : bool :=
  match error with
  | ThrownMcp e =>
      match statusCode e with
      | Some s =>
          negb (s =? 0) && (s >=? 400) && (s <? 500) && negb (s =? 429)
      | None => false
      end
  | _ => false
  end.

(** [isRetryableError(error)]. *)
Definition isRetryableError (error : Thrown) : bool :=
  match error with
  | ThrownMcp e =>
      match errorClass e with
      | RateLimitErrorClass => true
      | NetworkErrorClass => true
      | _ =>
          match statusCode e with
          | Some s => (s =? 429) || (s >=? 500)
          | None => false
          end
      end
  | _ => false
  end.

(** What the caller of [withRetry] can observe of one run. *)
Inductive Event : Type :=
| Invoked
| Slept (ms : Z).

Inductive Outcome (A : Type) : Type :=
| Returned (value : A)
| Threw (error : Thrown).

Arguments Returned {A} _.
Arguments Threw {A} _.

Section WithRetry.

(** The operation acts on a world [W]: each invocation returns or throws
    and leaves a new world. *)
Variables W A : Type.
Variable operation : W -> Outcome A * W.
Variable maxRetries : Z.
Variable baseDelay : Z.
Variable context : string.

(** The body of the [for] loop.  [remaining] counts the iterations the
    guard [attempt <= maxRetries] still admits, so the loop is left through
    the guard exactly when [remaining] is zero. *)
Fixpoint attempts (remaining : nat) (attempt : Z) (w : W)
    (lastError : Thrown) : list Event * Outcome A * W :=
  match remaining with
  | O => ([], Threw (ThrownMcp (handleApiError lastError context)), w)
  | S remaining' =>
      match operation w with
      | (Returned v, w') => ([Invoked], Returned v, w')
      | (Threw error, w') =>
          if isClientError error then ([Invoked], Threw error, w')
          else if attempt =? maxRetries then
            ([Invoked],
             Threw (ThrownMcp (handleApiError error context)), w')
          else
            let delay := baseDelay * 2 ^ (attempt - 1) in
            match attempts remaining' (attempt + 1) w' error with
            | (events, outcome, w'') =>
                (Invoked :: Slept delay :: events, outcome, w'')
            end
      end
  end.

(** [withRetry(operation, maxRetries, baseDelay, context)]. *)
Definition withRetry (w : W) : list Event * Outcome A * W :=
  attempts (Z.to_nat maxRetries) 1 w undefinedValue.

(** The world after [k] invocations in a row, from [w], that each fail
    with an error [withRetry] retries; [None] when one of them returns or
    fails with a client error. *)
Fixpoint afterFailures (k : nat) (w : W) : option W :=
  match k with
  | O => Some w
  | S k' =>
      match operation w with
      | (Threw error, w') =>
          if isClientError error then None else afterFailures k' w'
      | (Returned _, _) => None
      end
  end.

End WithRetry.

Definition eventsOf {W A : Type} (r : list Event * Outcome A * W)
    : list Event :=
  fst (fst r).

Definition outcomeOf {W A : Type} (r : list Event * Outcome A * W)
    : Outcome A :=
  snd (fst r).

Definition invocations (events : list Event) : nat :=
  List.length
    (filter (fun e => match e with Invoked => true | Slept _ => false end)
       events).

Fixpoint sleeps (events : list Event) : list Z :=
  match events with
  | [] => []
  | Slept ms :: rest => ms :: sleeps rest
  | Invoked :: rest => sleeps rest
  end.

(** The trace of a run that invokes the operation [k] times, the first of
    them as attempt number [attempt]: after every invocation but the last
    comes the sleep of that attempt. *)
Fixpoint retryTrace (baseDelay attempt : Z) (k : nat) : list Event :=
  match k with
  | O => []
  | S O => [Invoked]
  | S k' =>
      Invoked :: Slept (baseDelay * 2 ^ (attempt - 1))
        :: retryTrace baseDelay (attempt + 1) k'
  end.

End ErrorHandler.

(** ** The version resolver: [class VersionResolver] *)

Module VersionResolver.

Import ErrorHandler.

Definition startsWithDigit (s : string) : bool :=
  match s with
  | String c _ => Js.isDigit c
  | EmptyString => false
  end.

(** The longest prefix made of runs of digits separated by single dots, of a
    string that starts with a digit, and what follows it: a dot belongs to
    the prefix only when a digit comes after it. *)
Fixpoint numericPrefix (s : string) : string * string :=
  match s with
  | String c s' =>
      if Js.isDigit c then
        let (prefix, rest) := numericPrefix s' in (String c prefix, rest)
      else if Ascii.eqb c "." && startsWithDigit s' then
        let (prefix, rest) := numericPrefix s' in (String c prefix, rest)
      else (EmptyString, s)
  | EmptyString => (EmptyString, EmptyString)
  end.

(** The [version.match] of [parseVersion]: the two groups.  The greedy
    first group is the longest numeric prefix; the second group, any
    characters up to the end of the string, then matches unless a line
    terminator is in the way. *)
Definition matchVersion (version : string) : option (string * string) :=
  if startsWithDigit version then
    let (numeric, rest) := numericPrefix version in
    if Js.all (fun c => negb (Js.isLineTerminator c)) rest
    then Some (numeric, rest)
    else None
  else None.

(** [Number(s)] on a string of decimal digits. *)
Fixpoint digitsValue (acc : Z) (s : string) : Z :=
  match s with
  | EmptyString => acc
  | String c s' => digitsValue (acc * 10 + (Z.of_N (Js.codeOf c) - 48)) s'
  end.

Definition Number (s : string) : Z := digitsValue 0 s.

Record ParsedVersion : Type := mkParsed {
  numbers : list Z;
  suffix : string
}.

(** The local function [parseVersion] of [compareVersions]. *)
Definition parseVersion (version : string) : ParsedVersion :=
  match matchVersion version with
  | None => {| numbers := [0]; suffix := version |}
  | Some (numeric, rest) =>
      {| numbers := map Number (Js.split "." numeric); suffix := rest |}
  end.

(** The [for] loop of [compareVersions]: [Some d] when it returns the
    difference [d] at the first index where the padded components differ,
    [None] when it runs to [maxLength]. *)
Fixpoint compareAt (indices : list nat) (numbersA numbersB : list Z)
    : option Z :=
  match indices with
  | [] => None
  | i :: later =>
      let numA := nth i numbersA 0 in
      let numB := nth i numbersB 0 in
      if negb (numA =? numB) then Some (numA - numB)
      else compareAt later numbersA numbersB
  end.

Definition compareNumbers (numbersA numbersB : list Z) : option Z :=
  let maxLength := Nat.max (List.length numbersA) (List.length numbersB) in
  compareAt (seq 0 maxLength) numbersA numbersB.

Record VersionRange : Type := mkRange {
  minVersion : option string;
  maxVersion : option string;
  includeMin : bool;
  includeMax : bool
}.

(** [range.replace(/^[\[\(]|[\]\)]$/g, '')]: one opening delimiter is removed
    from the front and one closing delimiter from the back. *)
Definition stripOpen (s : string) : string :=
  match s with
  | String c s' =>
      if Ascii.eqb c "[" || Ascii.eqb c "(" then s' else s
  | EmptyString => EmptyString
  end.

Fixpoint stripClose (s : string) : string :=
  match s with
  | EmptyString => EmptyString
  | String c EmptyString =>
      if Ascii.eqb c "]" || Ascii.eqb c ")" then EmptyString else s
  | String c s' => String c (stripClose s')
  end.

Definition cleanRange (range : string) : string :=
  stripClose (stripOpen range).

(** [parts[i]?.trim() || undefined], followed by the test
    [v && v.length > 0 ? v : undefined] of the returned record. *)
Definition boundAt (parts : list string) (i : nat) : option string :=
  match nth_error parts i with
  | Some part =>
      let trimmed := Js.trim part in
      if Js.truthy trimmed then Some trimmed else None
  | None => None
  end.

(** [parseVersionRange(range)]. *)
Definition parseVersionRange (range : string) : VersionRange :=
  let cleaned := cleanRange range in
  let parts := Js.split "," cleaned in
  {| minVersion := boundAt parts 0;
     maxVersion := boundAt parts 1;
     includeMin := Js.startsWith range "[";
     includeMax := Js.endsWith range "]" |}.

(** One pattern of [isVersionRange], [^O.+C$] for an opening character [O]
    and a closing character [C]: [inner] is what follows the first
    character. *)
Fixpoint innerThenClose (close : ascii) (inner : string) : bool :=
  match inner with
  | EmptyString => false
  | String c EmptyString => false
  | String c (String d EmptyString) =>
      negb (Js.isLineTerminator c) && Ascii.eqb d close
  | String c rest => negb (Js.isLineTerminator c) && innerThenClose close rest
  end.

Definition matchesDelimited (open close : ascii) (version : string) : bool :=
  match version with
  | String c inner => Ascii.eqb c open && innerThenClose close inner
  | EmptyString => false
  end.

Definition rangePatterns : list (ascii * ascii) :=
  [("["%char, "]"%char); ("("%char, ")"%char);
   ("["%char, ")"%char); ("("%char, "]"%char)].

(** [isVersionRange(version)]. *)
Definition isVersionRange (version : string) : bool :=
  existsb (fun p => matchesDelimited (fst p) (snd p) version) rangePatterns.

Definition isSuffixChar (c : ascii) : bool :=
  Js.isAlnum c || Ascii.eqb c "." || Ascii.eqb c "-".

(** [isSpecificVersion(version)]: a numeric prefix, then nothing or a
    hyphen and one or more characters among letters, digits, dot and
    hyphen. *)
Definition isSpecificVersion (version : string) : bool :=
  if startsWithDigit version then
    match snd (numericPrefix version) with
    | EmptyString => true
    | String c qualifier =>
        Ascii.eqb c "-" && Js.truthy qualifier && Js.all isSuffixChar qualifier
    end
  else false.

Definition preReleaseKeywords : list string :=
  ["alpha"; "beta"; "rc"; "snapshot"; "milestone"; "cr"; "pr";
   "dev"; "preview"; "early"; "experimental"].

(** [isPreRelease(version)]. *)
Definition isPreRelease (version : string) : bool :=
  let lowerVersion := Js.toLowerCase version in
  existsb (fun keyword => Js.includes lowerVersion keyword)
    preReleaseKeywords.

Section Resolver.

(** [String.prototype.localeCompare] is the runtime's collation. *)
Variable localeCompare : string -> string -> Z.

(** [compareVersions(a, b)]. *)
Definition compareVersions (a b : string) : Z :=
  let versionA := parseVersion a in
  let versionB := parseVersion b in
  match compareNumbers (numbers versionA) (numbers versionB) with
  | Some difference => difference
  | None =>
      if negb (String.eqb (suffix versionA) (suffix versionB)) then
        if negb (Js.truthy (suffix versionA)) && Js.truthy (suffix versionB)
        then 1
        else if Js.truthy (suffix versionA)
                && negb (Js.truthy (suffix versionB))
        then -1
        else localeCompare (suffix versionA) (suffix versionB)
      else 0
  end.

(** The guard [if (minVersion)]: an absent or empty bound is skipped. *)
Definition present (bound : option string) : option string :=
  match bound with
  | Some b => if Js.truthy b then Some b else None
  | None => None
  end.

(** [versionMatchesRange(version, minVersion, maxVersion, includeMin,
    includeMax)]. *)
Definition versionMatchesRange (version : string)
    (minV maxV : option string) (inclMin inclMax : bool) : bool :=
  let belowMin :=
    match present minV with
    | Some lower =>
        let comparison := compareVersions version lower in
        if inclMin then comparison <? 0 else comparison <=? 0
    | None => false
    end in
  if belowMin then false
  else
    let aboveMax :=
      match present maxV with
      | Some upper =>
          let comparison := compareVersions version upper in
          if inclMax then comparison >? 0 else comparison >=? 0
      | None => false
      end in
    if aboveMax then false else true.

(** The registry client [mavenCentralApi]: its three calls either return
    or throw. *)
Variable getLatestVersion : string -> string -> Outcome string.
Variable versionExists : string -> string -> string -> Outcome bool.
Variable getVersions : string -> string -> Outcome (list string).

Definition matchingVersions (versions : list string) (range : string)
    : list string :=
  let r := parseVersionRange range in
  filter
    (fun version =>
       versionMatchesRange version (minVersion r) (maxVersion r)
         (includeMin r) (includeMax r))
    versions.

(** [resolveVersionRange(groupId, artifactId, range)]. *)
Definition resolveVersionRange (groupId artifactId range : string)
    : Outcome string :=
  match getVersions groupId artifactId with
  | Threw e => Threw e
  | Returned versions =>
      match matchingVersions versions range with
      | [] =>
          Threw
            (ThrownMcp
               (VersionNotFoundError (groupId ++ ":" ++ artifactId) range))
      | first :: _ => Returned first
      end
  end.

Definition verifyExists (groupId artifactId versionSpec : string)
    : Outcome string :=
  match versionExists groupId artifactId versionSpec with
  | Threw e => Threw e
  | Returned true => Returned versionSpec
  | Returned false =>
      Threw
        (ThrownMcp
           (VersionNotFoundError (groupId ++ ":" ++ artifactId) versionSpec))
  end.

(** [resolveVersion(groupId, artifactId, versionSpec)]. *)
Definition resolveVersion (groupId artifactId versionSpec : string)
    : Outcome string :=
  if String.eqb versionSpec "latest" || negb (Js.truthy versionSpec) then
    getLatestVersion groupId artifactId
  else if isSpecificVersion versionSpec then
    verifyExists groupId artifactId versionSpec
  else if isVersionRange versionSpec then
    resolveVersionRange groupId artifactId versionSpec
  else verifyExists groupId artifactId versionSpec.

(** The known versions are sorted descending: no version is lower than one
    that comes after it. *)
Fixpoint sortedDescending (versions : list string) : bool :=
  match versions with
  | [] => true
  | v :: later =>
      forallb (fun w => compareVersions v w >=? 0) later
      && sortedDescending later
  end.

(** [getLatestStableVersion(groupId, artifactId)].  The result [None] is
    the [undefined] that [versions[0]] gives on an empty list. *)
Definition getLatestStableVersion (groupId artifactId : string)
    : Outcome (option string) :=
  match getVersions groupId artifactId with
  | Threw e => Threw e
  | Returned versions =>
      let stableVersions :=
        filter (fun version => negb (isPreRelease version)) versions in
      match stableVersions with
      | [] => Returned (nth_error versions 0)
      | first :: _ => Returned (Some first)
      end
  end.

(** The weaker reading of "sorted descending": no version is lower than
    its successor in the list. *)
Fixpoint adjacentDescending (versions : list string) : bool :=
  match versions with
  | v :: later =>
      match later with
      | w :: _ => (compareVersions v w >=? 0) && adjacentDescending later
      | [] => true
      end
  | [] => true
  end.

End Resolver.

(** Comparison of strings by code units, a collation that agrees with
    [localeCompare] on digits and on letters of one case. *)
Fixpoint codeUnitCompare (a b : string) : Z :=
  match a, b with
  | EmptyString, EmptyString => 0
  | EmptyString, String _ _ => -1
  | String _ _, EmptyString => 1
  | String c a', String d b' =>
      if (Js.codeOf c <? Js.codeOf d)%N then -1
      else if (Js.codeOf d <? Js.codeOf c)%N then 1
      else codeUnitCompare a' b'
  end.

(** *** The range grammar in the words of the specification *)

(** Split on the first comma: the text before it and the text after it
    (nothing, when there is no comma). *)
Fixpoint splitFirstComma (s : string) : string * string :=
  match s with
  | EmptyString => (EmptyString, EmptyString)
  | String c s' =>
      if Ascii.eqb c "," then (EmptyString, s')
      else let (lowerText, upperText) := splitFirstComma s' in
           (String c lowerText, upperText)
  end.

Definition boundOfText (text : string) : option string :=
  if Js.truthy text then Some text else None.

(** Range parsing as section 4.3 of the specification words it: strip the
    outer delimiters, split on the first comma, an empty text is unbounded,
    and the delimiters give the inclusivity. *)
Definition specParseVersionRange (range : string) : VersionRange :=
  let (lowerText, upperText) := splitFirstComma (cleanRange range) in
  {| minVersion := boundOfText lowerText;
     maxVersion := boundOfText upperText;
     includeMin := Js.startsWith range "[";
     includeMax := Js.endsWith range "]" |}.

(** The text a delimited specifier encloses: all but its first and last
    character. *)
Definition enclosed (spec : string) : string :=
  match spec with
  | String _ inner => String.substring 0 (String.length inner - 1) inner
  | EmptyString => EmptyString
  end.

End VersionResolver.

(** ** The registry client: [class MavenCentralApi] *)

Module MavenCentralApi.

Import ErrorHandler.

Definition isDigitOrDot (c : ascii) : bool :=
  Js.isDigit c || Ascii.eqb c ".".

(** The local function [parseVersion] of the client's [compareVersions]:
    every character but digits and dots is dropped, the pieces between the
    dots are read as numbers (an empty piece is 0), and the list is cut or
    padded with zeros to three entries. *)
Definition parseVersion (version : string) : list Z :=
  let parts :=
    map VersionResolver.Number
      (Js.split "." (Js.keep isDigitOrDot version)) in
  firstn 3 (parts ++ [0; 0; 0])%list.

(** [compareVersions(a, b)] of the client, the comparator [getVersions]
    sorts with.  Both lists have three entries, so the loop over 0, 1, 2
    reads entries that exist. *)
Definition compareVersions (a b : string) : Z :=
  match VersionResolver.compareAt (seq 0 3) (parseVersion a) (parseVersion b)
  with
  | Some difference => difference
  | None => 0
  end.

Section Client.

(** [getVersions] reads the cache and the network. *)
Variable getVersions : string -> string -> Outcome (list string).

(** [getLatestVersion(groupId, artifactId)]. *)
Definition getLatestVersion (groupId artifactId : string) : Outcome string :=
  match getVersions groupId artifactId with
  | Threw e => Threw e
  | Returned [] =>
      Threw (ThrownMcp (PackageNotFoundError (groupId ++ ":" ++ artifactId)))
  | Returned (latest :: _) => Returned latest
  end.

End Client.

End MavenCentralApi.

(** ** Input validation: [class Validators] *)

Module Validators.

Import ErrorHandler.

Definition InvalidPackageNameError (packageName : string) : McpError :=
  {| errorClass := InvalidPackageNameErrorClass;
     message :=
       "Invalid package name format: '" ++ packageName
       ++ "'. Expected format: groupId:artifactId";
     code := "INVALID_PACKAGE_NAME";
     statusCode := Some 400 |}.

(** The character class of the three patterns: letters, digits, dot,
    underscore and hyphen. *)
Definition isIdChar (c : ascii) : bool :=
  Js.isAlnum c || Ascii.eqb c "." || Ascii.eqb c "_" || Ascii.eqb c "-".

(** The pattern shared by group ids, artifact ids and versions: one or more
    characters of the class, from the start of the string to its end. *)
Definition matchesIdPattern (s : string) : bool :=
  Js.truthy s && Js.all isIdChar s.

(** [isValidGroupId(groupId)]. *)
Definition isValidGroupId (groupId : string) : bool :=
  matchesIdPattern groupId && (0 <? String.length groupId)%nat.

(** [isValidArtifactId(artifactId)]. *)
Definition isValidArtifactId (artifactId : string) : bool :=
  matchesIdPattern artifactId && (0 <? String.length artifactId)%nat.

(** [validatePackageName(packageName)]. *)
Definition validatePackageName (packageName : string)
    : Outcome (string * string) :=
  if negb (Js.truthy packageName) then
    Threw (ThrownMcp (InvalidPackageNameError packageName))
  else
    let trimmed := Js.trim packageName in
    if negb (Js.truthy trimmed) then
      Threw (ThrownMcp (InvalidPackageNameError packageName))
    else
      match Js.split ":" trimmed with
      | [groupId; artifactId] =>
          if negb (Js.truthy groupId) || negb (isValidGroupId groupId) then
            Threw (ThrownMcp (InvalidPackageNameError packageName))
          else if negb (Js.truthy artifactId)
                  || negb (isValidArtifactId artifactId) then
            Threw (ThrownMcp (InvalidPackageNameError packageName))
          else Returned (groupId, artifactId)
      | _ => Threw (ThrownMcp (InvalidPackageNameError packageName))
      end.

(** [validateVersion(version)]. *)
Definition validateVersion (version : string) : bool :=
  if negb (Js.truthy version) then false
  else if String.eqb version "latest" then true
  else matchesIdPattern version.

(** [validateSearchQuery(query)]. *)
Definition validateSearchQuery (query : string) : bool :=
  if negb (Js.truthy query) then false
  else
    let trimmed := Js.trim query in
    (0 <? String.length trimmed)%nat && (String.length trimmed <=? 500)%nat.

(** [sanitizeString(input)]. *)
Definition sanitizeString (input : string) : string :=
  Js.keep isIdChar input.

(** [formatMavenCoordinates(groupId, artifactId, version?)]: an absent or
    empty version is left out. *)
Definition formatMavenCoordinates (groupId artifactId : string)
    (version : option string) : string :=
  let coords := groupId ++ ":" ++ artifactId in
  match version with
  | Some v => if Js.truthy v then coords ++ ":" ++ v else coords
  | None => coords
  end.

End Validators.

(** * Properties *)

(** ** The map operations *)

Module MapFacts.

Import CacheService.

Section Facts.

Context {T : Type}.

Abbreviation Entry := (CacheEntry T).
Abbreviation Map := (list (string * CacheEntry T)).

Implicit Types (m : Map) (k : string) (e : Entry).

Lemma mapDelete_filter k m :
  mapDelete k m = filter (fun p => negb (String.eqb (fst p) k)) m.
Proof.
  induction m as [|[k' e'] m IH]; simpl; [reflexivity|].
  destruct (String.eqb k' k); simpl; now rewrite IH.
Qed.

Lemma mapGet_In k e m : mapGet k m = Some e -> In (k, e) m.
Proof.
  induction m as [|[k' e'] m IH]; simpl; [discriminate|].
  destruct (String.eqb_spec k' k) as [->|_].
  - intros [= ->]. now left.
  - intros H. right. now apply IH.
Qed.

Lemma mapGet_None k m : mapGet k m = None <-> ~ In k (keys m).
Proof.
  induction m as [|[k' e'] m IH]; simpl.
  - tauto.
  - destruct (String.eqb_spec k' k) as [->|Hne].
    + split; [discriminate|]. intros H. exfalso. apply H. now left.
    + rewrite IH. split.
      * intros H [Heq|Hin]; [now apply Hne | now apply H].
      * intros H Hin. apply H. now right.
Qed.

Lemma In_mapGet k e m : NoDup (keys m) -> In (k, e) m -> mapGet k m = Some e.
Proof.
  induction m as [|[k' e'] m IH]; simpl; [tauto|].
  intros Hnd Hin. inversion Hnd as [|? ? Hnotin Hnd']; subst.
  destruct Hin as [[= -> ->]|Hin].
  - now rewrite String.eqb_refl.
  - destruct (String.eqb_spec k' k) as [->|_].
    + exfalso. apply Hnotin. change k with (fst (k, e)). now apply in_map.
    + now apply IH.
Qed.

Lemma mapGet_mapSet_same k e m : mapGet k (mapSet k e m) = Some e.
Proof.
  induction m as [|[k' e'] m IH]; simpl.
  - now rewrite String.eqb_refl.
  - destruct (String.eqb k' k) eqn:Heq; simpl; now rewrite Heq.
Qed.

Lemma mapGet_mapSet_other k k' e m :
  k' <> k -> mapGet k' (mapSet k e m) = mapGet k' m.
Proof.
  intros Hne. induction m as [|[k0 e0] m IH]; simpl.
  - destruct (String.eqb_spec k k'); [congruence | reflexivity].
  - destruct (String.eqb_spec k0 k) as [->|Hk]; simpl.
    + destruct (String.eqb_spec k k'); [congruence | reflexivity].
    + now rewrite IH.
Qed.

Lemma mapSet_fresh k e m : mapGet k m = None -> mapSet k e m = (m ++ [(k, e)])%list.
Proof.
  induction m as [|[k' e'] m IH]; simpl; [reflexivity|].
  destruct (String.eqb k' k); [discriminate|].
  intros H. now rewrite IH.
Qed.

Lemma keys_mapSet_present k e m :
  mapGet k m <> None -> keys (mapSet k e m) = keys m.
Proof.
  induction m as [|[k' e'] m IH]; simpl; [congruence|].
  destruct (String.eqb k' k); simpl; [reflexivity|].
  intros H. unfold keys in *. simpl. f_equal. now apply IH.
Qed.

Lemma length_mapSet k e m :
  (List.length (mapSet k e m) <= S (List.length m))%nat.
Proof.
  induction m as [|[k' e'] m IH]; simpl; [lia|].
  destruct (String.eqb k' k); simpl; lia.
Qed.

Lemma keys_mapSet_incl k e m k0 :
  In k0 (keys (mapSet k e m)) -> k0 = k \/ In k0 (keys m).
Proof.
  induction m as [|[k' e'] m IH]; simpl.
  - intros [<-|[]]. now left.
  - destruct (String.eqb k' k); simpl; intuition.
Qed.

Lemma NoDup_mapSet k e m : NoDup (keys m) -> NoDup (keys (mapSet k e m)).
Proof.
  intros Hnd. destruct (mapGet k m) eqn:Hg.
  - rewrite keys_mapSet_present; [assumption | congruence].
  - rewrite (mapSet_fresh _ _ _ Hg). unfold keys. rewrite map_app. simpl.
    apply NoDup_app; [assumption | | ].
    + constructor; [simpl; tauto | constructor].
    + intros x Hin [<-|[]]. now apply (proj1 (mapGet_None _ _) Hg).
Qed.

(** Filtering a map with distinct keys. *)

Lemma keys_filter_incl (f : string * Entry -> bool) m k :
  In k (keys (filter f m)) -> In k (keys m).
Proof.
  unfold keys. rewrite !in_map_iff. intros [p [Hp Hin]].
  exists p. split; [assumption|]. now apply filter_In in Hin.
Qed.

Lemma NoDup_filter_keys (f : string * Entry -> bool) m :
  NoDup (keys m) -> NoDup (keys (filter f m)).
Proof.
  induction m as [|p m IH]; simpl; [trivial|].
  intros Hnd. inversion Hnd as [|? ? Hnotin Hnd']; subst.
  destruct (f p); simpl; [|now apply IH].
  constructor; [|now apply IH].
  intros Hin. apply Hnotin. now apply keys_filter_incl in Hin.
Qed.

Lemma mapGet_filter (f : string * Entry -> bool) k m :
  NoDup (keys m) ->
  mapGet k (filter f m) =
  match mapGet k m with
  | Some e => if f (k, e) then Some e else None
  | None => None
  end.
Proof.
  induction m as [|[k' e'] m IH]; simpl; [reflexivity|].
  intros Hnd. inversion Hnd as [|? ? Hnotin Hnd']; subst.
  destruct (String.eqb_spec k' k) as [->|Hne].
  - destruct (f (k, e')); simpl.
    + now rewrite String.eqb_refl.
    + rewrite (IH Hnd').
      now rewrite (proj2 (mapGet_None k m) Hnotin).
  - destruct (f (k', e')); simpl.
    + destruct (String.eqb_spec k' k); [contradiction | now apply IH].
    + now apply IH.
Qed.

Lemma mapGet_app k m1 m2 :
  mapGet k (m1 ++ m2)%list =
  match mapGet k m1 with
  | Some e => Some e
  | None => mapGet k m2
  end.
Proof.
  induction m1 as [|[k' e'] m1 IH]; simpl; [reflexivity|].
  now destruct (String.eqb k' k).
Qed.

Lemma keys_inj m p q :
  NoDup (keys m) -> In p m -> In q m -> fst p = fst q -> p = q.
Proof.
  intros Hnd Hp Hq Heq. destruct p as [k e], q as [k' e']. simpl in Heq.
  subst k'. apply (In_mapGet _ _ _ Hnd) in Hp, Hq. congruence.
Qed.

(** The sweep. *)

Lemma sweep_pass now (l : Map) : forall acc,
  fold_left
    (fun (a : Map) (p : string * Entry) =>
       if expired now (snd p) then mapDelete (fst p) a else a)
    l acc
  = filter
      (fun p =>
         negb (existsb
                 (fun q => expired now (snd q) && String.eqb (fst p) (fst q))
                 l))
      acc.
Proof.
  induction l as [|q l IH]; intros acc; simpl.
  - symmetry. apply forallb_filter_id. now apply forallb_forall.
  - rewrite IH. destruct (expired now (snd q)); simpl.
    + rewrite mapDelete_filter.
      induction acc as [|p acc IHacc]; simpl; [reflexivity|].
      destruct (String.eqb (fst p) (fst q)); simpl.
      * apply IHacc.
      * destruct (existsb _ l); simpl; now rewrite IHacc.
    + reflexivity.
Qed.

Lemma sweep_filter now m :
  NoDup (keys m) -> sweep now m = filter (fun p => live now (snd p)) m.
Proof.
  intros Hnd. unfold sweep. rewrite sweep_pass.
  apply filter_ext_in. intros p Hp. unfold live. f_equal.
  destruct (expired now (snd p)) eqn:Hexp.
  - apply existsb_exists. exists p. split; [assumption|].
    now rewrite Hexp, String.eqb_refl.
  - destruct (existsb _ m) eqn:Hex; [|reflexivity].
    apply existsb_exists in Hex. destruct Hex as [q [Hq Hcond]].
    apply andb_true_iff in Hcond. destruct Hcond as [Hqexp Hkey].
    apply String.eqb_eq in Hkey.
    rewrite (keys_inj m p q Hnd Hp Hq Hkey) in Hexp. congruence.
Qed.

Lemma length_filter_le (f : string * Entry -> bool) m :
  (List.length (filter f m) <= List.length m)%nat.
Proof.
  induction m as [|p m IH]; simpl; [lia|]. destruct (f p); simpl; lia.
Qed.

Lemma length_filter_lt (f : string * Entry -> bool) m p :
  In p m -> f p = false -> (List.length (filter f m) < List.length m)%nat.
Proof.
  induction m as [|q m IH]; simpl; [tauto|].
  intros [->|Hin] Hf.
  - rewrite Hf. pose proof (length_filter_le f m). lia.
  - specialize (IH Hin Hf). destruct (f q); simpl; lia.
Qed.

Lemma length_sweep now m :
  (List.length (sweep now m) <= List.length m)%nat.
Proof. unfold sweep. rewrite sweep_pass. apply length_filter_le. Qed.

Lemma keys_sweep_incl now m k : In k (keys (sweep now m)) -> In k (keys m).
Proof. unfold sweep. rewrite sweep_pass. apply keys_filter_incl. Qed.

Lemma keys_mapDelete_incl k0 m k :
  In k (keys (mapDelete k0 m)) -> In k (keys m).
Proof. rewrite mapDelete_filter. apply keys_filter_incl. Qed.

Lemma mapDelete_head k e m :
  NoDup (keys ((k, e) :: m)) -> mapDelete k ((k, e) :: m) = m.
Proof.
  simpl. intros Hnd. inversion Hnd as [|? ? Hnotin _]; subst.
  rewrite String.eqb_refl, mapDelete_filter.
  apply forallb_filter_id. apply forallb_forall. intros p Hp.
  destruct (String.eqb_spec (fst p) k) as [<-|]; [|reflexivity].
  exfalso. apply Hnotin. now apply in_map.
Qed.

Lemma mapGet_mapDelete_same k m : mapGet k (mapDelete k m) = None.
Proof.
  induction m as [|[k' e'] m IH]; simpl; [reflexivity|].
  destruct (String.eqb k' k) eqn:Heq; simpl; [assumption|].
  now rewrite Heq.
Qed.

Lemma mapGet_mapDelete_other k k' m :
  k' <> k -> mapGet k' (mapDelete k m) = mapGet k' m.
Proof.
  intros Hne. induction m as [|[k0 e0] m IH]; simpl; [reflexivity|].
  destruct (String.eqb_spec k0 k) as [->|Hk]; simpl.
  - destruct (String.eqb_spec k k'); [congruence | assumption].
  - now rewrite IH.
Qed.

End Facts.

End MapFacts.

(** ** The cache *)

Module CacheFacts.

Import CacheService MapFacts.

Section Facts.

Context {T : Type}.

Abbreviation Entry := (CacheEntry T).
Abbreviation Map := (list (string * CacheEntry T)).
Abbreviation Cache := (CacheService.t T).

Implicit Types (m : Map) (k key : string) (e : Entry) (c : Cache).

Lemma truthy_iff (s : string) : Js.truthy s = true <-> s <> "".
Proof. destruct s; simpl; split; congruence. Qed.

Lemma size_nonneg m : 0 <= size m.
Proof. unfold size. lia. Qed.

(** *** Making room *)

Lemma keys_evictOldest_incl m k :
  In k (keys (evictOldest m)) -> In k (keys m).
Proof.
  unfold evictOldest. destruct (firstKey m) as [k0|]; [|trivial].
  destruct (Js.truthy k0); [apply keys_mapDelete_incl | trivial].
Qed.

Lemma keys_makeRoom_incl now bound m k :
  In k (keys (makeRoom now bound m)) -> In k (keys m).
Proof.
  unfold makeRoom. destruct (size m >=? bound); [|trivial].
  destruct (size (sweep now m) >=? bound); intros H.
  - apply keys_evictOldest_incl in H. now apply keys_sweep_incl in H.
  - now apply keys_sweep_incl in H.
Qed.

Lemma size_evictOldest m :
  m <> [] ->
  Forall (fun k => k <> "") (keys m) ->
  size (evictOldest m) < size m.
Proof.
  destruct m as [|[k0 e0] m]; [congruence|]. intros _ Hkeys.
  inversion Hkeys as [|? ? Hk0 _]; subst.
  unfold evictOldest. cbn [firstKey].
  rewrite (proj2 (truthy_iff k0) Hk0).
  unfold size. cbn [mapDelete]. rewrite String.eqb_refl, mapDelete_filter.
  pose proof (length_filter_le (fun p => negb (String.eqb (fst p) k0)) m).
  cbn [List.length]. lia.
Qed.

Lemma size_makeRoom now bound m :
  1 <= bound ->
  Forall (fun k => k <> "") (keys m) ->
  size m <= bound ->
  size (makeRoom now bound m) < bound.
Proof.
  intros Hbound Hkeys Hsize. unfold makeRoom.
  destruct (Z.geb_spec (size m) bound) as [Hfull|]; [|lia].
  pose proof (length_sweep now m) as Hsw.
  destruct (Z.geb_spec (size (sweep now m)) bound) as [Hstill|]; [|lia].
  assert (Hlt : size (evictOldest (sweep now m)) < size (sweep now m)).
  { apply size_evictOldest.
    - intros Hnil. rewrite Hnil in Hstill. unfold size in Hstill.
      simpl in Hstill. lia.
    - apply Forall_forall. intros k Hk. apply keys_sweep_incl in Hk.
      now apply (proj1 (Forall_forall _ _) Hkeys). }
  unfold size in *. lia.
Qed.

Lemma NoDup_makeRoom now bound m :
  NoDup (keys m) -> NoDup (keys (makeRoom now bound m)).
Proof.
  intros Hnd.
  assert (Hsw : NoDup (keys (sweep now m))).
  { rewrite sweep_filter by assumption. now apply NoDup_filter_keys. }
  unfold makeRoom. destruct (size m >=? bound); [|assumption].
  destruct (size (sweep now m) >=? bound); [|assumption].
  unfold evictOldest. destruct (firstKey (sweep now m)) as [k0|]; [|assumption].
  destruct (Js.truthy k0); [|assumption].
  rewrite mapDelete_filter. now apply NoDup_filter_keys.
Qed.

(** [set] keeps the keys of the map pairwise distinct. *)
Lemma NoDup_set stamp now key (value : T) ttl_arg c :
  NoDup (keys (cache c)) ->
  NoDup (keys (cache (set stamp now key value ttl_arg c))).
Proof. intros H. simpl. now apply NoDup_mapSet, NoDup_makeRoom. Qed.

Lemma set_keeps_bound stamp now key (value : T) ttl_arg c :
  1 <= maxSize c ->
  key <> "" ->
  Forall (fun k => k <> "") (keys (cache c)) ->
  size (cache c) <= maxSize c ->
  Forall (fun k => k <> "")
    (keys (cache (set stamp now key value ttl_arg c)))
  /\ size (cache (set stamp now key value ttl_arg c)) <= maxSize c.
Proof.
  intros Hbound Hkey Hkeys Hsize. simpl. split.
  - apply Forall_forall. intros k Hk.
    apply keys_mapSet_incl in Hk. destruct Hk as [->|Hk]; [assumption|].
    apply keys_makeRoom_incl in Hk.
    now apply (proj1 (Forall_forall _ _) Hkeys).
  - pose proof (size_makeRoom now (maxSize c) (cache c) Hbound Hkeys Hsize).
    pose proof (length_mapSet key
                  {| data := value; timestamp := stamp;
                     ttl := orElse ttl_arg (defaultTtl c) |}
                  (makeRoom now (maxSize c) (cache c))).
    unfold size in *. lia.
Qed.

Lemma In_firstn {A : Type} (n : nat) : forall (l : list A) (x : A),
  In x (firstn n l) -> In x l.
Proof.
  induction n as [|n IH]; intros [|a l] x; simpl; try tauto.
  intros [->|H]; [now left | right; now apply IH].
Qed.

(** Every operation but [set] leaves the store a sub-map of what it was. *)
Lemma step_shrinks (op : Operation T) c :
  storesUnder op = [] ->
  maxSize (step c op) = maxSize c
  /\ size (cache (step c op)) <= size (cache c)
  /\ forall k, In k (keys (cache (step c op))) -> In k (keys (cache c)).
Proof.
  destruct op as [stamp now key value ttl_arg|now key|now key|key| |now];
    simpl; intros Hop; try discriminate.
  - unfold get. destruct (mapGet key (cache c)) as [e|].
    + destruct (now - timestamp e >? ttl e); simpl.
      * split; [reflexivity|]. split.
        -- rewrite mapDelete_filter. unfold size.
           pose proof (length_filter_le
                         (fun p => negb (String.eqb (fst p) key)) (cache c)).
           lia.
        -- intros k. apply keys_mapDelete_incl.
      * split; [reflexivity|]. split; [lia | trivial].
    + simpl. split; [reflexivity|]. split; [lia | trivial].
  - unfold has. destruct (mapGet key (cache c)) as [e|].
    + destruct (now - timestamp e >? ttl e); simpl.
      * split; [reflexivity|]. split.
        -- rewrite mapDelete_filter. unfold size.
           pose proof (length_filter_le
                         (fun p => negb (String.eqb (fst p) key)) (cache c)).
           lia.
        -- intros k. apply keys_mapDelete_incl.
      * split; [reflexivity|]. split; [lia | trivial].
    + simpl. split; [reflexivity|]. split; [lia | trivial].
  - split; [reflexivity|]. split.
    + rewrite mapDelete_filter. unfold size.
      pose proof (length_filter_le
                    (fun p => negb (String.eqb (fst p) key)) (cache c)).
      lia.
    + intros k. apply keys_mapDelete_incl.
  - split; [reflexivity|]. split.
    + unfold size. simpl. lia.
    + intros k [].
  - split; [reflexivity|]. split.
    + pose proof (length_sweep now (cache c)). unfold size. lia.
    + intros k. apply keys_sweep_incl.
Qed.

Lemma step_keeps_bound (op : Operation T) c :
  1 <= maxSize c ->
  Forall (fun k => k <> "") (storesUnder op) ->
  Forall (fun k => k <> "") (keys (cache c)) ->
  size (cache c) <= maxSize c ->
  maxSize (step c op) = maxSize c
  /\ Forall (fun k => k <> "") (keys (cache (step c op)))
  /\ size (cache (step c op)) <= maxSize c.
Proof.
  intros Hbound Hop Hkeys Hsize.
  destruct (storesUnder op) as [|key rest] eqn:Hstores.
  - destruct (step_shrinks op c Hstores) as (Hmax & Hle & Hincl).
    split; [exact Hmax|]. split; [|lia].
    apply Forall_forall. intros k Hk.
    apply (proj1 (Forall_forall _ _) Hkeys). now apply Hincl.
  - destruct op as [stamp now key' value ttl_arg| | | | |];
      simpl in Hstores; try discriminate.
    injection Hstores as <- <-. inversion Hop as [|? ? Hkey _]; subst.
    split; [reflexivity|].
    now apply set_keeps_bound.
Qed.

Lemma run_keeps_bound (ops : list (Operation T)) : forall c,
  1 <= maxSize c ->
  Forall (fun op => Forall (fun k => k <> "") (storesUnder op)) ops ->
  Forall (fun k => k <> "") (keys (cache c)) ->
  size (cache c) <= maxSize c ->
  size (cache (run ops c)) <= maxSize c.
Proof.
  induction ops as [|op ops IH]; intros c Hbound Hops Hkeys Hsize.
  - assumption.
  - inversion Hops as [|? ? Hop Hrest]; subst. simpl.
    destruct (step_keeps_bound op c Hbound Hop Hkeys Hsize)
      as (Hmax & Hkeys' & Hsize').
    rewrite <- Hmax. apply IH; try assumption; rewrite Hmax; assumption.
Qed.

(** C1, as amended.  On a cache constructed with a bound [maxSize] of at
    least one, every sequence of operations whose [set] calls use non-empty
    keys keeps the number of entries at most [maxSize] after each
    operation: the bound holds for the cache reached after any number [n]
    of them.  Sequences of [set] calls alone are the case where every
    operation is an [OpSet]. *)
Theorem set_capacity_invariant
    (options : CacheOptions) (ops : list (Operation T)) (n : nat) :
  1 <= maxSize (create (T:=T) options) ->
  Forall (fun op => Forall (fun k => k <> "") (storesUnder op)) ops ->
  size (cache (run (firstn n ops) (create options)))
  <= maxSize (create (T:=T) options).
Proof.
  intros Hbound Hops. apply run_keeps_bound.
  - assumption.
  - apply Forall_forall. intros op Hop. apply In_firstn in Hop.
    now apply (proj1 (Forall_forall _ _) Hops).
  - constructor.
  - simpl in Hbound |- *. unfold size. simpl. lia.
Qed.

(** The keys of a store reached from an empty one are pairwise distinct:
    the model is a [Map]. *)
Lemma step_keeps_distinct (op : Operation T) c :
  NoDup (keys (cache c)) -> NoDup (keys (cache (step c op))).
Proof.
  intros Hnd.
  assert (Hdel : forall key, NoDup (keys (mapDelete key (cache c)))).
  { intros key. rewrite mapDelete_filter. now apply NoDup_filter_keys. }
  destruct op as [stamp now key value ttl_arg|now key|now key|key| |now];
    simpl.
  - now apply NoDup_mapSet, NoDup_makeRoom.
  - unfold get. destruct (mapGet key (cache c)) as [e|]; [|assumption].
    destruct (now - timestamp e >? ttl e); simpl; [apply Hdel | assumption].
  - unfold has. destruct (mapGet key (cache c)) as [e|]; [|assumption].
    destruct (now - timestamp e >? ttl e); simpl; [apply Hdel | assumption].
  - apply Hdel.
  - constructor.
  - rewrite sweep_filter by assumption. now apply NoDup_filter_keys.
Qed.

Lemma run_keeps_distinct (ops : list (Operation T)) : forall c,
  NoDup (keys (cache c)) -> NoDup (keys (cache (run ops c))).
Proof.
  induction ops as [|op ops IH]; intros c Hnd; [assumption|].
  simpl. apply IH. now apply step_keeps_distinct.
Qed.

(** *** Reading *)

(** C2.  An entry stored by [set] under [key] at time [stamp] with
    [ttl = t] is returned by [get] at every [now] with [now - stamp <= t],
    in particular at [stamp + t - 1], and the cache is left as it was; at
    every [now] with [now - stamp > t], in particular at [stamp + t + 1],
    [get] reports absent and leaves the cache with the key deleted and all
    other keys untouched.  Whatever [get] returns is the data of an entry
    that is not expired. *)
Theorem get_respects_ttl
    (c : Cache) (stamp sweepAt : Z) (key : string) (value : T)
    (ttl_arg : option Z) (now : Z) :
  let t := orElse ttl_arg (defaultTtl c) in
  let stored := set stamp sweepAt key value ttl_arg c in
  mapGet key (cache stored)
  = Some {| data := value; timestamp := stamp; ttl := t |}
  /\ (now - stamp <= t -> get now key stored = (Some value, stored))
  /\ (now - stamp > t ->
      fst (get now key stored) = None
      /\ cache (snd (get now key stored)) = mapDelete key (cache stored)
      /\ mapGet key (cache (snd (get now key stored))) = None
      /\ forall k, k <> key ->
           mapGet k (cache (snd (get now key stored)))
           = mapGet k (cache stored))
  /\ get (stamp + t - 1) key stored = (Some value, stored)
  /\ fst (get (stamp + t + 1) key stored) = None
  /\ (forall (c0 : Cache) (v : T),
        fst (get now key c0) = Some v ->
        exists e, mapGet key (cache c0) = Some e /\ data e = v
                  /\ now - timestamp e <= ttl e).
Proof.
  intros t stored.
  assert (Hstored : mapGet key (cache stored)
                    = Some {| data := value; timestamp := stamp; ttl := t |}).
  { apply mapGet_mapSet_same. }
  assert (Hlive : forall at_, at_ - stamp <= t ->
                    get at_ key stored = (Some value, stored)).
  { intros at_ Hat. unfold get. rewrite Hstored. simpl.
    destruct (Z.gtb_spec (at_ - stamp) t); [lia | reflexivity]. }
  assert (Hdead : forall at_, at_ - stamp > t ->
                    get at_ key stored
                    = (None, {| cache := mapDelete key (cache stored);
                                defaultTtl := defaultTtl stored;
                                maxSize := maxSize stored |})).
  { intros at_ Hat. unfold get. rewrite Hstored. simpl.
    destruct (Z.gtb_spec (at_ - stamp) t); [reflexivity | lia]. }
  split; [exact Hstored|].
  split; [apply Hlive|].
  split.
  { intros Hnow. rewrite (Hdead now Hnow). simpl.
    split; [reflexivity|]. split; [reflexivity|].
    split; [apply mapGet_mapDelete_same|].
    intros k Hk. now apply mapGet_mapDelete_other. }
  split; [apply Hlive; lia|].
  split; [rewrite Hdead by lia; reflexivity|].
  intros c0 v. unfold get. destruct (mapGet key (cache c0)) as [e|] eqn:Hg.
  - destruct (Z.gtb_spec (now - timestamp e) (ttl e)); simpl.
    + discriminate.
    + intros [= <-]. exists e. repeat split. lia.
  - simpl. discriminate.
Qed.

(** *** Writing at capacity *)

Lemma live_entry_survives now m k e :
  NoDup (keys m) -> In (k, e) m -> live now e = true ->
  mapGet k (filter (fun p => live now (snd p)) m) = Some e.
Proof.
  intros Hnd Hin Hlive. rewrite mapGet_filter by assumption.
  rewrite (In_mapGet k e m Hnd Hin). simpl. now rewrite Hlive.
Qed.

Lemma expired_entry_swept now m k e :
  NoDup (keys m) -> In (k, e) m -> expired now e = true ->
  mapGet k (filter (fun p => live now (snd p)) m) = None.
Proof.
  intros Hnd Hin Hexp. rewrite mapGet_filter by assumption.
  rewrite (In_mapGet k e m Hnd Hin). simpl. unfold live. now rewrite Hexp.
Qed.

Lemma mapGet_absent_incl m m' k :
  (forall k0, In k0 (keys m') -> In k0 (keys m)) ->
  mapGet k m = None -> mapGet k m' = None.
Proof.
  intros Hincl Hm. apply mapGet_None. intros Hin.
  apply (proj1 (mapGet_None k m) Hm). now apply Hincl.
Qed.

Lemma mapGet_evictOldest m k e :
  mapGet k m = Some e ->
  mapGet k (evictOldest m) = Some e \/ firstKey m = Some k.
Proof.
  intros Hg. unfold evictOldest.
  destruct (firstKey m) as [k0|] eqn:Hfirst; [|now left].
  destruct (Js.truthy k0); [|now left].
  destruct (String.eqb_spec k k0) as [->|Hne]; [now right|].
  left. now rewrite mapGet_mapDelete_other.
Qed.

(** C6.  On a cache exactly at capacity, [set] with a fresh key removes
    every expired entry; when the cache held an expired entry the sweep
    alone makes room, so the map becomes its live entries, in order,
    followed by the new one, and every live entry is preserved; in general
    a live entry is lost only when the map is still at capacity after the
    sweep, and then it is the first entry in insertion order; and when the
    swept map is still at capacity and its first key is not empty, that
    first entry is the one entry evicted. *)
Theorem set_sweeps_before_evicting
    (c : Cache) (stamp now : Z) (key : string) (value : T)
    (ttl_arg : option Z) :
  NoDup (keys (cache c)) ->
  size (cache c) = maxSize c ->
  mapGet key (cache c) = None ->
  let entry :=
    {| data := value; timestamp := stamp;
       ttl := orElse ttl_arg (defaultTtl c) |} in
  let after := cache (set stamp now key value ttl_arg c) in
  (forall ke ee,
     In (ke, ee) (cache c) -> expired now ee = true ->
     mapGet ke after = None)
  /\ ((exists ke ee, In (ke, ee) (cache c) /\ expired now ee = true) ->
      after
      = (filter (fun p => live now (snd p)) (cache c) ++ [(key, entry)])%list
      /\ forall kl el,
           In (kl, el) (cache c) -> live now el = true ->
           mapGet kl after = Some el)
  /\ (forall kl el,
        In (kl, el) (cache c) -> live now el = true ->
        mapGet kl after = Some el
        \/ (size (sweep now (cache c)) >= maxSize c
            /\ firstKey (sweep now (cache c)) = Some kl))
  /\ (forall k0 e0 rest,
        sweep now (cache c) = (k0, e0) :: rest ->
        size (sweep now (cache c)) >= maxSize c ->
        k0 <> "" ->
        after = (rest ++ [(key, entry)])%list)
  /\ mapGet key after = Some entry.
Proof.
  intros Hnd Hsize Hfresh entry after.
  set (m := cache c) in *.
  set (room := makeRoom now (maxSize c) m).
  assert (Hsweep : sweep now m = filter (fun p => live now (snd p)) m)
    by now apply sweep_filter.
  assert (Hroomfresh : mapGet key room = None).
  { apply (mapGet_absent_incl m); [|assumption].
    intros k0. apply keys_makeRoom_incl. }
  assert (Hafter : after = (room ++ [(key, entry)])%list).
  { unfold after. simpl. now apply mapSet_fresh. }
  assert (Hother : forall k, In k (keys m) -> String.eqb key k = false).
  { intros k Hk. destruct (String.eqb_spec key k) as [<-|]; [|reflexivity].
    exfalso. now apply (proj1 (mapGet_None key m) Hfresh). }
  assert (Hfull : (size m >=? maxSize c) = true).
  { destruct (Z.geb_spec (size m) (maxSize c)); [reflexivity | lia]. }
  split; [|split; [|split; [|split]]].
  - intros ke ee Hin Hexp. rewrite Hafter, mapGet_app.
    assert (Hgone : mapGet ke room = None).
    { apply (mapGet_absent_incl (sweep now m)).
      - intros k0. unfold room, makeRoom. rewrite Hfull.
        destruct (size (sweep now m) >=? maxSize c); [|trivial].
        apply keys_evictOldest_incl.
      - rewrite Hsweep. now apply (expired_entry_swept now m ke ee). }
    rewrite Hgone. simpl.
    rewrite (Hother ke); [reflexivity|].
    change ke with (fst (ke, ee)). now apply in_map.
  - intros [ke [ee [Hin Hexp]]].
    assert (Hroom : room = filter (fun p => live now (snd p)) m).
    { unfold room, makeRoom. rewrite Hfull, Hsweep.
      pose proof (length_filter_lt (fun p => live now (snd p)) m (ke, ee) Hin)
        as Hlt.
      unfold live in Hlt at 1. simpl in Hlt. rewrite Hexp in Hlt.
      specialize (Hlt eq_refl).
      destruct (Z.geb_spec
                  (size (filter (fun p => live now (snd p)) m)) (maxSize c))
        as [Hge|]; [|reflexivity].
      unfold size in *. lia. }
    split; [now rewrite Hafter, Hroom|].
    intros kl el Hl Hlive. rewrite Hafter, mapGet_app, Hroom.
    now rewrite (live_entry_survives now m kl el).
  - intros kl el Hl Hlive.
    pose proof (live_entry_survives now m kl el Hnd Hl Hlive) as Hkept.
    rewrite <- Hsweep in Hkept.
    rewrite Hafter, mapGet_app. unfold room, makeRoom. rewrite Hfull.
    destruct (Z.geb_spec (size (sweep now m)) (maxSize c)) as [Hge|].
    + destruct (mapGet_evictOldest _ _ _ Hkept) as [-> | Hfirst].
      * now left.
      * right. split; [lia | assumption].
    + rewrite Hkept. now left.
  - intros k0 e0 rest Hswept Hstill Hk0. rewrite Hafter. f_equal.
    unfold room, makeRoom. rewrite Hfull.
    destruct (Z.geb_spec (size (sweep now m)) (maxSize c)); [|lia].
    unfold evictOldest. rewrite Hswept. cbn [firstKey].
    rewrite (proj2 (truthy_iff k0) Hk0).
    apply mapDelete_head. rewrite <- Hswept, Hsweep.
    now apply NoDup_filter_keys.
  - apply mapGet_mapSet_same.
Qed.

(** C7, as amended.  [set] on a key that is present stores the new entry
    under it.  Below capacity nothing else happens: the map is updated in
    place, so the key keeps its position in the insertion order, and every
    entry under another key is unchanged.  At capacity the capacity
    handling runs as for a fresh key.  Every expired entry is swept away;
    when the survivors are fewer than [maxSize] the new entry is put among
    them; when they still number [maxSize] or more, the first of them is
    evicted, its key not being the empty string, and the new entry is put
    among the rest: an oldest entry under another key is gone, and when the
    oldest entry is the one under the key itself, the key moves to the end
    of the insertion order. *)
Theorem set_overwrites_in_place
    (c : Cache) (stamp now : Z) (key : string) (value : T)
    (ttl_arg : option Z) :
  mapGet key (cache c) <> None ->
  let entry :=
    {| data := value; timestamp := stamp;
       ttl := orElse ttl_arg (defaultTtl c) |} in
  let after := cache (set stamp now key value ttl_arg c) in
  mapGet key after = Some entry
  /\ (size (cache c) < maxSize c ->
      after = mapSet key entry (cache c)
      /\ keys after = keys (cache c)
      /\ forall k, k <> key -> mapGet k after = mapGet k (cache c))
  /\ (size (cache c) >= maxSize c ->
      NoDup (keys (cache c)) ->
      let survivors := filter (fun p => live now (snd p)) (cache c) in
      (forall k e,
         k <> key -> In (k, e) (cache c) -> expired now e = true ->
         mapGet k after = None)
      /\ (size survivors < maxSize c -> after = mapSet key entry survivors)
      /\ (forall oldest e0 rest,
            survivors = (oldest, e0) :: rest ->
            size survivors >= maxSize c ->
            oldest <> "" ->
            after = mapSet key entry rest
            /\ (oldest <> key -> mapGet oldest after = None)
            /\ (oldest = key -> after = (rest ++ [(key, entry)])%list))
      /\ (survivors = [] -> after = [(key, entry)])).
Proof.
  intros Hpresent entry after. split; [apply mapGet_mapSet_same|]. split.
  - intros Hbelow.
    assert (Hroom : makeRoom now (maxSize c) (cache c) = cache c).
    { unfold makeRoom.
      destruct (Z.geb_spec (size (cache c)) (maxSize c)); [lia | reflexivity]. }
    unfold after. simpl. rewrite Hroom.
    split; [reflexivity|]. split.
    + now apply keys_mapSet_present.
    + intros k Hk. now apply mapGet_mapSet_other.
  - intros Hfull Hnd survivors.
    assert (Hsweep : sweep now (cache c) = survivors)
      by now apply sweep_filter.
    assert (Hafter : after
                     = mapSet key entry
                         (if size survivors >=? maxSize c
                          then evictOldest survivors else survivors)).
    { unfold after. cbn [set cache]. fold entry. f_equal.
      unfold makeRoom. rewrite Hsweep.
      destruct (Z.geb_spec (size (cache c)) (maxSize c)); [reflexivity|lia]. }
    split; [|split; [|split]].
    + intros k e Hk Hin Hexp. unfold after. simpl.
      rewrite mapGet_mapSet_other by assumption.
      apply (mapGet_absent_incl (sweep now (cache c))).
      * intros k0. unfold makeRoom.
        destruct (Z.geb_spec (size (cache c)) (maxSize c)); [|lia].
        destruct (size (sweep now (cache c)) >=? maxSize c); [|trivial].
        apply keys_evictOldest_incl.
      * rewrite sweep_filter by assumption.
        now apply (expired_entry_swept now (cache c) k e).
    + intros Hless. rewrite Hafter.
      destruct (Z.geb_spec (size survivors) (maxSize c)); [lia|reflexivity].
    + intros oldest e0 rest Hsurvivors Hstill Holdest.
      assert (Hdistinct : NoDup (keys ((oldest, e0) :: rest))).
      { rewrite <- Hsurvivors. now apply NoDup_filter_keys. }
      assert (Hgone : mapGet oldest rest = None).
      { apply mapGet_None. now inversion Hdistinct. }
      assert (Hrest : after = mapSet key entry rest).
      { rewrite Hafter.
        destruct (Z.geb_spec (size survivors) (maxSize c)); [|lia].
        f_equal. unfold evictOldest. rewrite Hsurvivors. cbn [firstKey].
        rewrite (proj2 (truthy_iff oldest) Holdest).
        now apply mapDelete_head. }
      split; [exact Hrest|]. split.
      * intros Hother. rewrite Hrest.
        now rewrite mapGet_mapSet_other by assumption.
      * intros ->. rewrite Hrest. now apply mapSet_fresh.
    + intros Hnone. rewrite Hafter, Hnone. cbn [evictOldest firstKey].
      now destruct (size [] >=? maxSize c).
Qed.

End Facts.

(** *** Concrete runs *)

(** C1 is false as stated: a cache constructed with [maxSize = 0] holds
    one entry after the first [set]. *)
Lemma set_exceeds_zero_capacity :
  let options := {| opt_ttl := None; opt_maxSize := Some 0 |} in
  let calls := [OpSet 0 0 "a" "data" None] in
  ~ (size (cache (run calls (create options)))
     <= maxSize (create (T:=string) options)).
Proof. vm_compute. intros H. now apply H. Qed.

(** The truthiness guard of the eviction: with [maxSize = 1], an entry under
    the empty key is never evicted, and the map grows to two entries. *)
Example empty_key_is_not_evicted :
  let options := {| opt_ttl := None; opt_maxSize := Some 1 |} in
  let calls :=
    [OpSet 0 0 "" "empty key data" None; OpSet 1 1 "a" "data" None] in
  keys (cache (run calls (create options))) = [""; "a"].
Proof. reflexivity. Qed.

Lemma set_capacity_invariant_witness :
  let options := {| opt_ttl := Some 10000; opt_maxSize := Some 2 |} in
  let calls :=
    [OpSet 0 0 "key1" "data1" None; OpSet 1 1 "key2" "data2" None;
     OpGet 2 "key1"; OpSet 3 3 "key3" "data3" None] in
  size (cache (run (firstn 4 calls) (create options)))
  <= maxSize (create (T:=string) options)
  /\ keys (cache (run calls (create options))) = ["key2"; "key3"].
Proof.
  intros options calls. split.
  - apply set_capacity_invariant.
    + simpl. lia.
    + repeat constructor; discriminate.
  - reflexivity.
Defined.

Lemma get_respects_ttl_witness :
  let c := create (T:=string) {| opt_ttl := Some 1000; opt_maxSize := Some 3 |} in
  let stored := set 100 100 "test-key" "test-data" (Some 50) c in
  get 149 "test-key" stored = (Some "test-data", stored)
  /\ fst (get 151 "test-key" stored) = None.
Proof.
  intros c stored.
  pose proof (get_respects_ttl c 100 100 "test-key" "test-data" (Some 50) 149)
    as (_ & Hlive & _ & _ & _ & _).
  pose proof (get_respects_ttl c 100 100 "test-key" "test-data" (Some 50) 151)
    as (_ & _ & Hdead & _).
  split.
  - apply Hlive. simpl. lia.
  - apply Hdead. simpl. lia.
Defined.

Lemma set_sweeps_before_evicting_witness :
  let expiredEntry := mkEntry "expired-data" 0 50 in
  let validEntry := mkEntry "valid-data" 0 10000 in
  let c :=
    mkCache [("expired-key", expiredEntry); ("valid-key", validEntry)]
      10000 2 in
  let after := cache (set 60 60 "new-key" "new-data" None c) in
  mapGet "expired-key" after = None
  /\ mapGet "valid-key" after = Some validEntry
  /\ after = [("valid-key", validEntry);
              ("new-key", mkEntry "new-data" 60 10000)].
Proof.
  intros expiredEntry validEntry c after.
  assert (Hnd : NoDup (keys (cache c))).
  { repeat constructor; simpl; intuition discriminate. }
  destruct (set_sweeps_before_evicting c 60 60 "new-key" "new-data" None
              Hnd eq_refl eq_refl)
    as (Hgone & Hkept & _ & _ & _).
  assert (Hex : exists ke ee, In (ke, ee) (cache c) /\ expired 60 ee = true).
  { exists "expired-key", expiredEntry. split; [now left | reflexivity]. }
  destruct (Hkept Hex) as [Hshape Hlive].
  split; [|split].
  - apply (Hgone "expired-key" expiredEntry); [now left | reflexivity].
  - apply (Hlive "valid-key" validEntry); [right; now left | reflexivity].
  - exact Hshape.
Defined.

(** C7 is false as stated.  At capacity, overwriting ["b"] evicts the live
    entry under the other key ["a"]; below capacity, overwriting ["a"]
    leaves it first in the insertion order. *)
Lemma overwrite_at_capacity_evicts_other_key :
  let a := mkEntry "A" 0 1000 in
  let b := mkEntry "B" 0 1000 in
  let full := mkCache [("a", a); ("b", b)] 1000 2 in
  let roomy := mkCache [("a", a); ("b", b)] 1000 3 in
  (mapGet "b" (cache full) = Some b
   /\ mapGet "a" (cache full) = Some a
   /\ live 10 a = true
   /\ mapGet "a" (cache (set 10 10 "b" "B2" None full)) = None)
  /\ (mapGet "a" (cache roomy) = Some a
      /\ keys (cache (set 10 10 "a" "A2" None roomy)) = ["a"; "b"]).
Proof. vm_compute. repeat split. Qed.

Lemma set_overwrites_in_place_witness :
  let a := mkEntry "A" 0 1000 in
  let b := mkEntry "B" 0 1000 in
  let roomy := mkCache [("a", a); ("b", b)] 1000 3 in
  let full := mkCache [("a", a); ("b", b)] 1000 2 in
  let after := cache (set 10 10 "a" "A2" None roomy) in
  (mapGet "a" after = Some (mkEntry "A2" 10 1000)
   /\ keys after = keys (cache roomy)
   /\ mapGet "b" after = Some b)
  /\ cache (set 10 10 "b" "B2" None full) = [("b", mkEntry "B2" 10 1000)]
  /\ cache (set 10 10 "a" "A2" None full)
     = [("b", b); ("a", mkEntry "A2" 10 1000)].
Proof.
  intros a b roomy full after.
  assert (Hdistinct : NoDup (keys (cache full))).
  { repeat constructor; simpl; intuition discriminate. }
  assert (Hfull : size (cache full) >= maxSize full)
    by (vm_compute; discriminate).
  split; [|split].
  - assert (Hpresent : mapGet "a" (cache roomy) <> None) by discriminate.
    destruct (set_overwrites_in_place roomy 10 10 "a" "A2" None Hpresent)
      as (Hnew & Hbelow & _).
    assert (Hlt : size (cache roomy) < maxSize roomy)
      by (vm_compute; reflexivity).
    destruct (Hbelow Hlt) as (_ & Hkeys & Hothers).
    split; [exact Hnew|]. split; [exact Hkeys|].
    apply (Hothers "b"). discriminate.
  - assert (Hpresent : mapGet "b" (cache full) <> None) by discriminate.
    destruct (set_overwrites_in_place full 10 10 "b" "B2" None Hpresent)
      as (_ & _ & Hcapacity).
    destruct (Hcapacity Hfull Hdistinct) as (_ & _ & Hevict & _).
    destruct (Hevict "a" a [("b", b)] eq_refl Hfull) as (Hrest & _).
    + discriminate.
    + exact Hrest.
  - assert (Hpresent : mapGet "a" (cache full) <> None) by discriminate.
    destruct (set_overwrites_in_place full 10 10 "a" "A2" None Hpresent)
      as (_ & _ & Hcapacity).
    destruct (Hcapacity Hfull Hdistinct) as (_ & _ & Hevict & _).
    destruct (Hevict "a" a [("b", b)] eq_refl Hfull) as (_ & _ & Hmoved).
    + discriminate.
    + exact (Hmoved eq_refl).
Defined.

End CacheFacts.

(** ** The retry policy *)

Module RetryFacts.

Import ErrorHandler.


Lemma isClientError_inv (e : Thrown) :
  isClientError e = true ->
  exists m s, e = ThrownMcp m /\ statusCode m = Some s
              /\ 400 <= s < 500 /\ s <> 429.
Proof.
  destruct e as [m| |]; simpl; try discriminate.
  destruct (statusCode m) as [s|] eqn:Hs; [|discriminate].
  intros H. exists m, s.
  destruct (Z.eqb_spec s 0); [discriminate|].
  destruct (Z.geb_spec s 400); [|discriminate].
  destruct (Z.ltb_spec s 500); [|discriminate].
  destruct (Z.eqb_spec s 429); [discriminate|].
  repeat split; try assumption; lia.
Qed.

Lemma invocations_retryTrace (baseDelay : Z) (k : nat) : forall attempt,
  invocations (retryTrace baseDelay attempt k) = k.
Proof.
  induction k as [|k IH]; intros attempt; [reflexivity|].
  destruct k as [|k]; [reflexivity|].
  change (invocations (retryTrace baseDelay attempt (S (S k))))
    with (S (invocations (retryTrace baseDelay (attempt + 1) (S k)))).
  now rewrite IH.
Qed.

Lemma sleeps_retryTrace (baseDelay : Z) (k : nat) : forall first : nat,
  sleeps (retryTrace baseDelay (Z.of_nat first) k)
  = map (fun attempt => baseDelay * 2 ^ (Z.of_nat attempt - 1))
      (seq first (k - 1)).
Proof.
  induction k as [|k IH]; intros first; [reflexivity|].
  destruct k as [|k]; [reflexivity|].
  change (sleeps (retryTrace baseDelay (Z.of_nat first) (S (S k))))
    with (baseDelay * 2 ^ (Z.of_nat first - 1)
          :: sleeps (retryTrace baseDelay (Z.of_nat first + 1) (S k))).
  replace (Z.of_nat first + 1) with (Z.of_nat (S first)) by lia.
  rewrite IH. simpl. now rewrite Nat.sub_0_r.
Qed.

Section Runs.

Context {W A : Type}.
Variable operation : W -> Outcome A * W.
Variable maxRetries : Z.
Variable baseDelay : Z.
Variable context : string.

Abbreviation loop := (attempts W A operation maxRetries baseDelay context).

(** Every run is a run of [k] invocations with the back-off sleeps between
    them, for some [k] within the bound. *)
Lemma attempts_trace (remaining : nat) : forall attempt w lastError,
  Z.of_nat remaining = maxRetries - attempt + 1 ->
  exists k,
    (k <= remaining)%nat /\ (1 <= remaining -> 1 <= k)%nat
    /\ eventsOf (loop remaining attempt w lastError)
       = retryTrace baseDelay attempt k.
Proof.
  induction remaining as [|n IH]; intros attempt w lastError Hrel.
  - exists 0%nat. simpl. repeat split; lia.
  - simpl. destruct (operation w) as [[v|error] w'].
    + exists 1%nat. simpl. repeat split; lia.
    + destruct (isClientError error).
      * exists 1%nat. simpl. repeat split; lia.
      * destruct (Z.eqb_spec attempt maxRetries) as [Heq|Hne].
        -- exists 1%nat. simpl. repeat split; lia.
        -- destruct (IH (attempt + 1) w' error) as (k & Hle & Hpos & Hev);
             [lia|].
           destruct (loop n (attempt + 1) w' error) as [[events outcome] w''].
           unfold eventsOf in *. simpl in *.
           exists (S k). split; [lia|]. split; [lia|].
           destruct k as [|k]; [lia|]. now rewrite Hev.
Qed.


End Runs.



End RetryFacts.

(** ** The cache keys *)

Module CacheKeyFacts.

Import CacheKeys.

Lemma substring_none (s : string) : String.substring 0 0 s = "".
Proof. now destruct s. Qed.

Lemma keep_kept (p : ascii -> bool) (c : ascii) (s : string) :
  p c = true -> Js.keep p (String c s) = String c (Js.keep p s).
Proof. intros H. simpl. now rewrite H. Qed.

(** C9, at the input of the specification.  The key of the query
    ["spring boot"] is the same whatever the limit, the quality and the
    popularity are, and however the runtime prints them: the sixteen
    characters kept of the encoding cover the first twelve bytes of the
    joined parameters, which are the query and its separator. *)
Theorem generateSearchKey_spring_boot
    (JsNumber : Type) (numberToString : JsNumber -> string)
    (limit quality popularity : option JsNumber) :
  generateSearchKey JsNumber numberToString "spring boot"
    limit quality popularity
  = "search:c3ByaW5nIGJvb3Q6".
Proof.
  unfold generateSearchKey.
  cbn [Js.join append utf8Bytes].
  repeat match goal with
  | |- context [utf8Unit ?c] =>
      let bytes := eval vm_compute in (utf8Unit c) in
      change (utf8Unit c) with bytes
  end.
  cbn [app base64].
  repeat match goal with
  | |- context [base64Char ?i] =>
      let c := eval vm_compute in (base64Char i) in
      change (base64Char i) with c
  end.
  repeat (rewrite keep_kept by reflexivity).
  cbn [String.substring].
  now rewrite substring_none.
Qed.

(** The two calls of the specification's example differ in the limit and
    give one key. *)
Example generateSearchKey_limit_collision :
  generateSearchKey Decimal printDecimal "spring boot"
    (Some (Whole "10")) (Some (Fraction "0" "8")) (Some (Fraction "0" "6"))
  = generateSearchKey Decimal printDecimal "spring boot"
      (Some (Whole "20")) (Some (Fraction "0" "8")) (Some (Fraction "0" "6")).
Proof. vm_compute. reflexivity. Qed.

(** The keys of the unit test "different search keys for different
    parameters": [key1] and [key3] differ in the quality only. *)
Example generateSearchKey_quality_collision :
  generateSearchKey Decimal printDecimal "spring boot"
    (Some (Whole "10")) None None
  = generateSearchKey Decimal printDecimal "spring boot"
      (Some (Whole "10")) (Some (Fraction "0" "5")) None.
Proof. vm_compute. reflexivity. Qed.

Example generateSearchKey_other_query :
  generateSearchKey Decimal printDecimal "different query"
    (Some (Whole "10")) None None
  = "search:ZGlmZmVyZW50IHF1".
Proof. vm_compute. reflexivity. Qed.

End CacheKeyFacts.

(** ** The version resolver *)

Module VersionFacts.

Import ErrorHandler VersionResolver.

(** *** Comparison *)

Lemma compareAt_swap (indices : list nat) (numbersA numbersB : list Z) :
  compareAt indices numbersB numbersA
  = option_map Z.opp (compareAt indices numbersA numbersB).
Proof.
  induction indices as [|i later IH]; simpl; [reflexivity|].
  rewrite (Z.eqb_sym (nth i numbersB 0) (nth i numbersA 0)).
  destruct (nth i numbersA 0 =? nth i numbersB 0); simpl.
  - exact IH.
  - f_equal. lia.
Qed.

Lemma compareNumbers_swap (numbersA numbersB : list Z) :
  compareNumbers numbersB numbersA
  = option_map Z.opp (compareNumbers numbersA numbersB).
Proof.
  unfold compareNumbers. rewrite Nat.max_comm. apply compareAt_swap.
Qed.

Lemma compareAt_same (indices : list nat) (ns : list Z) :
  compareAt indices ns ns = None.
Proof.
  induction indices as [|i later IH]; simpl; [reflexivity|].
  now rewrite Z.eqb_refl.
Qed.

Lemma codeUnitCompare_swap (a : string) : forall b,
  Z.sgn (codeUnitCompare a b) = - Z.sgn (codeUnitCompare b a).
Proof.
  induction a as [|c a IH]; intros [|d b]; simpl; try reflexivity.
  destruct (N.ltb_spec (Js.codeOf c) (Js.codeOf d)),
           (N.ltb_spec (Js.codeOf d) (Js.codeOf c));
    try reflexivity; try lia.
  apply IH.
Qed.

Section Comparison.

Variable localeCompare : string -> string -> Z.

Abbreviation compare := (compareVersions localeCompare).

Lemma compareVersions_same (a : string) : compare a a = 0.
Proof.
  unfold compareVersions, compareNumbers.
  now rewrite compareAt_same, String.eqb_refl.
Qed.

(** [localeCompare] is a consistent comparator: swapping its arguments
    swaps the sign of its result. *)
Hypothesis localeCompare_swap :
  forall s t, Z.sgn (localeCompare s t) = - Z.sgn (localeCompare t s).

(** C3.  For all version strings [a] and [b], exactly one of
    [compare a b < 0], [compare a b = 0] and [compare a b > 0] holds, and
    the sign of [compare a b] is the opposite of the sign of
    [compare b a]. *)
Theorem compareVersions_antisymmetric (a b : string) :
  let ab := compareVersions localeCompare a b in
  let ba := compareVersions localeCompare b a in
  ((ab < 0 /\ ab <> 0 /\ ~ ab > 0)
   \/ (~ ab < 0 /\ ab = 0 /\ ~ ab > 0)
   \/ (~ ab < 0 /\ ab <> 0 /\ ab > 0))
  /\ Z.sgn ab = - Z.sgn ba.
Proof.
  intros ab ba. subst ab ba.
  split; [lia|].
  unfold compareVersions.
  rewrite (compareNumbers_swap (numbers (parseVersion a))
             (numbers (parseVersion b))).
  destruct (compareNumbers (numbers (parseVersion a))
              (numbers (parseVersion b))) as [difference|]; simpl.
  - lia.
  - rewrite (String.eqb_sym (suffix (parseVersion b))
               (suffix (parseVersion a))).
    destruct (String.eqb (suffix (parseVersion a)) (suffix (parseVersion b)));
      simpl; [reflexivity|].
    destruct (Js.truthy (suffix (parseVersion a))),
             (Js.truthy (suffix (parseVersion b)));
      simpl; try reflexivity; apply localeCompare_swap.
Qed.

End Comparison.

(** **** Transitivity *)

(** The padded components of two versions, read as sequences: [i] is
    where they first differ. *)
Lemma compareAt_first_difference (numbersA numbersB : list Z) (n : nat) :
  forall start,
  match compareAt (seq start n) numbersA numbersB with
  | Some d =>
      exists i,
        (forall j, (start <= j < i)%nat ->
                   nth j numbersA 0 = nth j numbersB 0)
        /\ nth i numbersA 0 <> nth i numbersB 0
        /\ d = nth i numbersA 0 - nth i numbersB 0
  | None =>
      forall j, (start <= j < start + n)%nat ->
                nth j numbersA 0 = nth j numbersB 0
  end.
Proof.
  induction n as [|n IH]; intros start; simpl.
  - intros j Hj. lia.
  - destruct (Z.eqb_spec (nth start numbersA 0) (nth start numbersB 0))
      as [Heq|Hne]; simpl.
    + specialize (IH (S start)).
      destruct (compareAt (seq (S start) n) numbersA numbersB) as [d|].
      * destruct IH as (i & Hbefore & Hdiff & Hd). exists i.
        split; [|now split]. intros j Hj.
        destruct (Nat.eq_dec j start) as [->|]; [assumption|].
        apply Hbefore. lia.
      * intros j Hj. destruct (Nat.eq_dec j start) as [->|]; [assumption|].
        apply IH. lia.
    + exists start. split; [intros j Hj; lia | now split].
Qed.

Lemma compareNumbers_first_difference (numbersA numbersB : list Z) :
  match compareNumbers numbersA numbersB with
  | Some d =>
      exists i,
        (forall j, (j < i)%nat -> nth j numbersA 0 = nth j numbersB 0)
        /\ nth i numbersA 0 <> nth i numbersB 0
        /\ d = nth i numbersA 0 - nth i numbersB 0
  | None => forall j, nth j numbersA 0 = nth j numbersB 0
  end.
Proof.
  unfold compareNumbers.
  pose proof (compareAt_first_difference numbersA numbersB
                (Nat.max (List.length numbersA) (List.length numbersB)) 0)
    as Hspec.
  destruct (compareAt _ numbersA numbersB) as [d|].
  - destruct Hspec as (i & Hbefore & Hrest). exists i.
    split; [|exact Hrest]. intros j Hj. apply Hbefore. lia.
  - intros j.
    destruct (Nat.lt_ge_cases j
                (Nat.max (List.length numbersA) (List.length numbersB))).
    + apply Hspec. lia.
    + rewrite !nth_overflow by lia. reflexivity.
Qed.

(** The four ways two numeric verdicts combine. *)
Lemma compareNumbers_chain (numbersA numbersB numbersC : list Z) :
  match compareNumbers numbersA numbersB,
        compareNumbers numbersB numbersC with
  | Some d1, Some d2 =>
      d1 >= 0 -> d2 >= 0 ->
      exists d, compareNumbers numbersA numbersC = Some d /\ d > 0
  | Some d1, None =>
      compareNumbers numbersA numbersC = Some d1
  | None, Some d2 =>
      compareNumbers numbersA numbersC = Some d2
  | None, None => compareNumbers numbersA numbersC = None
  end.
Proof.
  pose proof (compareNumbers_first_difference numbersA numbersB) as Hab.
  pose proof (compareNumbers_first_difference numbersB numbersC) as Hbc.
  pose proof (compareNumbers_first_difference numbersA numbersC) as Hac.
  destruct (compareNumbers numbersA numbersB) as [d1|],
           (compareNumbers numbersB numbersC) as [d2|],
           (compareNumbers numbersA numbersC) as [d|].
  - intros H1 H2. exists d. split; [reflexivity|].
    destruct Hab as (i1 & B1 & N1 & ->), Hbc as (i2 & B2 & N2 & ->),
             Hac as (i & B & N & ->).
    destruct (lt_eq_lt_dec i1 i2) as [[Hlt|Heq]|Hgt].
    + destruct (lt_eq_lt_dec i i1) as [[Hi|Hi]|Hi].
      * pose proof (B1 i Hi). pose proof (B2 i ltac:(lia)). lia.
      * subst i. pose proof (B2 i1 Hlt). lia.
      * pose proof (B i1 Hi). pose proof (B2 i1 Hlt). lia.
    + subst i2. destruct (lt_eq_lt_dec i i1) as [[Hi|Hi]|Hi].
      * pose proof (B1 i Hi). pose proof (B2 i Hi). lia.
      * subst i. lia.
      * pose proof (B i1 Hi). lia.
    + destruct (lt_eq_lt_dec i i2) as [[Hi|Hi]|Hi].
      * pose proof (B1 i ltac:(lia)). pose proof (B2 i Hi). lia.
      * subst i. pose proof (B1 i2 Hgt). lia.
      * pose proof (B i2 Hi). pose proof (B1 i2 Hgt). lia.
  - intros H1 H2. exfalso.
    destruct Hab as (i1 & B1 & N1 & ->), Hbc as (i2 & B2 & N2 & ->).
    destruct (lt_eq_lt_dec i1 i2) as [[Hlt|Heq]|Hgt].
    + pose proof (B2 i1 Hlt). pose proof (Hac i1). lia.
    + subst i2. pose proof (Hac i1). lia.
    + pose proof (B1 i2 Hgt). pose proof (Hac i2). lia.
  - destruct Hab as (i1 & B1 & N1 & ->), Hac as (i & B & N & ->).
    f_equal. destruct (lt_eq_lt_dec i i1) as [[Hi|Hi]|Hi].
    + pose proof (B1 i Hi). pose proof (Hbc i). lia.
    + subst i. pose proof (Hbc i1). lia.
    + pose proof (B i1 Hi). pose proof (Hbc i1). lia.
  - exfalso. destruct Hab as (i1 & B1 & N1 & ->).
    pose proof (Hbc i1). pose proof (Hac i1). lia.
  - destruct Hbc as (i2 & B2 & N2 & ->), Hac as (i & B & N & ->).
    f_equal. destruct (lt_eq_lt_dec i i2) as [[Hi|Hi]|Hi].
    + pose proof (B2 i Hi). pose proof (Hab i). lia.
    + subst i. pose proof (Hab i2). lia.
    + pose proof (B i2 Hi). pose proof (Hab i2). lia.
  - exfalso. destruct Hbc as (i2 & B2 & N2 & ->).
    pose proof (Hab i2). pose proof (Hac i2). lia.
  - exfalso. destruct Hac as (i & B & N & ->).
    pose proof (Hab i). pose proof (Hbc i). lia.
  - reflexivity.
Qed.

Section Order.

Variable localeCompare : string -> string -> Z.

(** [localeCompare] orders the strings: it is transitive. *)
Hypothesis localeCompare_trans :
  forall s t u,
    localeCompare s t >= 0 -> localeCompare t u >= 0 ->
    localeCompare s u >= 0.

(** With a transitive collation, [compareVersions] is transitive. *)
Lemma compareVersions_transitive (a b c : string) :
  compareVersions localeCompare a b >= 0 ->
  compareVersions localeCompare b c >= 0 ->
  compareVersions localeCompare a c >= 0.
Proof.
  unfold compareVersions.
  pose proof (compareNumbers_chain (numbers (parseVersion a))
                (numbers (parseVersion b)) (numbers (parseVersion c)))
    as Hchain.
  destruct (compareNumbers (numbers (parseVersion a))
              (numbers (parseVersion b))) as [d1|],
           (compareNumbers (numbers (parseVersion b))
              (numbers (parseVersion c))) as [d2|].
  - intros H1 H2. destruct (Hchain H1 H2) as (d & -> & Hd). lia.
  - rewrite Hchain. intros H1 _. exact H1.
  - rewrite Hchain. intros _ H2. exact H2.
  - rewrite Hchain.
    destruct (String.eqb_spec (suffix (parseVersion a))
                (suffix (parseVersion b))) as [Hab|Hab],
             (String.eqb_spec (suffix (parseVersion b))
                (suffix (parseVersion c))) as [Hbc|Hbc],
             (String.eqb_spec (suffix (parseVersion a))
                (suffix (parseVersion c))) as [Hac|Hac];
      try congruence; simpl; try lia.
    + rewrite <- Hab. tauto.
    + rewrite Hbc. tauto.
    + destruct (suffix (parseVersion a)), (suffix (parseVersion b)),
               (suffix (parseVersion c));
        simpl; try lia; try congruence.
      apply localeCompare_trans.
Qed.

(** For such a collation the two readings of "sorted descending" agree. *)
Lemma adjacentDescending_sorted (versions : list string) :
  adjacentDescending localeCompare versions = true ->
  sortedDescending localeCompare versions = true.
Proof.
  induction versions as [|v later IH]; [reflexivity|].
  destruct later as [|w later'].
  - reflexivity.
  - intros Hadj.
    change (adjacentDescending localeCompare (v :: w :: later'))
      with ((compareVersions localeCompare v w >=? 0)
            && adjacentDescending localeCompare (w :: later'))%bool in Hadj.
    apply andb_true_iff in Hadj. destruct Hadj as [Hvw Hrest].
    specialize (IH Hrest).
    change (sortedDescending localeCompare (v :: w :: later'))
      with (forallb (fun u => compareVersions localeCompare v u >=? 0)
              (w :: later')
            && sortedDescending localeCompare (w :: later'))%bool.
    rewrite IH, andb_true_r.
    apply forallb_forall. intros u [<-|Hu]; [exact Hvw|].
    change (sortedDescending localeCompare (w :: later'))
      with (forallb (fun u => compareVersions localeCompare w u >=? 0) later'
            && sortedDescending localeCompare later')%bool in IH.
    apply andb_true_iff in IH. destruct IH as [Hw _].
    pose proof (proj1 (forallb_forall _ _) Hw u Hu) as Hwu. simpl in Hwu.
    destruct (Z.geb_spec (compareVersions localeCompare v w) 0);
      [|discriminate].
    destruct (Z.geb_spec (compareVersions localeCompare w u) 0);
      [|discriminate].
    destruct (Z.geb_spec (compareVersions localeCompare v u) 0);
      [reflexivity|].
    pose proof (compareVersions_transitive v w u). lia.
Qed.

End Order.

Lemma compareVersions_antisymmetric_witness :
  Z.sgn (compareVersions codeUnitCompare "1.0.0-alpha" "1.0.0-beta")
  = - Z.sgn (compareVersions codeUnitCompare "1.0.0-beta" "1.0.0-alpha")
  /\ compareVersions codeUnitCompare "1.0.0-alpha" "1.0.0-beta" < 0.
Proof.
  split.
  - apply (compareVersions_antisymmetric codeUnitCompare codeUnitCompare_swap).
  - reflexivity.
Defined.

(** *** Range parsing *)

Lemma splitFirstComma_no_comma (s : string) :
  Js.all (fun c => negb (Ascii.eqb c ",")) s = true ->
  splitFirstComma s = (s, "").
Proof.
  induction s as [|c s IH]; simpl; [reflexivity|].
  destruct (Ascii.eqb c ","); simpl; [discriminate|].
  intros H. now rewrite (IH H).
Qed.

Lemma split_first_comma (s : string) :
  Js.split "," s
  = fst (splitFirstComma s)
    :: (if Js.all (fun c => negb (Ascii.eqb c ",")) s then []
        else Js.split "," (snd (splitFirstComma s))).
Proof.
  induction s as [|c s IH]; simpl; [reflexivity|].
  destruct (Ascii.eqb c ","); simpl; [reflexivity|].
  rewrite IH. now destruct (splitFirstComma s).
Qed.

Lemma split_no_comma (s : string) :
  Js.all (fun c => negb (Ascii.eqb c ",")) s = true -> Js.split "," s = [s].
Proof.
  intros H. rewrite split_first_comma, H.
  now rewrite (splitFirstComma_no_comma s H).
Qed.

Lemma boundAt_first (s : string) :
  boundAt (Js.split "," s) 0
  = boundOfText (Js.trim (fst (splitFirstComma s))).
Proof. now rewrite split_first_comma. Qed.

Lemma boundAt_second (s : string) :
  boundAt (Js.split "," s) 1
  = boundOfText (Js.trim (fst (splitFirstComma (snd (splitFirstComma s))))).
Proof.
  rewrite split_first_comma. unfold boundAt. simpl.
  destruct (Js.all (fun c => negb (Ascii.eqb c ",")) s) eqn:Hcomma.
  - now rewrite (splitFirstComma_no_comma s Hcomma).
  - now rewrite split_first_comma.
Qed.

Lemma boundAt_truthy (parts : list string) (i : nat) (b : string) :
  boundAt parts i = Some b -> Js.truthy b = true.
Proof.
  unfold boundAt. destruct (nth_error parts i) as [part|]; [|discriminate].
  destruct (Js.truthy (Js.trim part)) eqn:Ht; [|discriminate].
  now intros [= <-].
Qed.

Lemma stripClose_closed (close : ascii) (inner : string) :
  close = "]"%char \/ close = ")"%char ->
  stripClose (inner ++ String close "") = inner.
Proof.
  intros Hclose. induction inner as [|c inner IH].
  - destruct Hclose as [-> | ->]; reflexivity.
  - change (String c inner ++ String close "")
      with (String c (inner ++ String close "")).
    destruct inner as [|d inner].
    + destruct Hclose as [-> | ->]; reflexivity.
    + change (stripClose (String c (String d inner ++ String close "")))
        with (String c (stripClose (String d inner ++ String close ""))).
      now rewrite IH.
Qed.

Lemma cleanRange_delimited (open close : ascii) (inner : string) :
  open = "["%char \/ open = "("%char ->
  close = "]"%char \/ close = ")"%char ->
  cleanRange (String open (inner ++ String close "")) = inner.
Proof.
  intros Hopen Hclose. unfold cleanRange.
  replace (stripOpen (String open (inner ++ String close "")))
    with (inner ++ String close "").
  - now apply stripClose_closed.
  - destruct Hopen as [-> | ->]; reflexivity.
Qed.

Lemma endsWith_last (s : string) (close c : ascii) :
  Js.endsWith (s ++ String close "") c = Ascii.eqb close c.
Proof.
  induction s as [|d s IH]; [reflexivity|].
  change (String d s ++ String close "") with (String d (s ++ String close "")).
  destruct s as [|d' s]; [reflexivity|]. exact IH.
Qed.

Lemma innerThenClose_delimited (close : ascii) (inner : string) :
  inner <> "" ->
  Js.all (fun c => negb (Js.isLineTerminator c)) inner = true ->
  innerThenClose close (inner ++ String close "") = true.
Proof.
  induction inner as [|c inner IH]; [congruence|].
  intros _ Hall. simpl in Hall. apply andb_true_iff in Hall.
  destruct Hall as [Hc Hrest].
  destruct inner as [|d inner].
  - simpl. now rewrite Hc, Ascii.eqb_refl.
  - change (innerThenClose close (String c (String d inner) ++ String close ""))
      with (match (inner ++ String close "") with
            | EmptyString =>
                negb (Js.isLineTerminator c) && Ascii.eqb d close
            | String _ _ =>
                negb (Js.isLineTerminator c)
                && innerThenClose close (String d inner ++ String close "")
            end).
    destruct (inner ++ String close "") eqn:Happ.
    + destruct inner; discriminate.
    + rewrite Hc. cbn [andb]. apply IH; [discriminate | exact Hrest].
Qed.

(** C8, as amended.  Parsing strips one opening delimiter and one closing
    delimiter; the lower text is what precedes the first comma of the
    remaining content, the upper text is what lies between the first comma
    and the second (up to the end when there is no second comma, nothing
    when there is no comma at all); both are trimmed of surrounding white
    space, and a text that is then empty yields an unbounded side; the
    lower bound is inclusive iff the opening delimiter is a left bracket and
    the upper bound iff the closing delimiter is a right bracket.  When the
    content has at most one comma and the texts carry no surrounding white
    space, this is the split on the first comma of the specification. *)
Theorem parseVersionRange_bounds (range : string) :
  let content := cleanRange range in
  let lowerText := fst (splitFirstComma content) in
  let afterFirst := snd (splitFirstComma content) in
  let upperText := fst (splitFirstComma afterFirst) in
  parseVersionRange range
  = {| minVersion := boundOfText (Js.trim lowerText);
       maxVersion := boundOfText (Js.trim upperText);
       includeMin := Js.startsWith range "[";
       includeMax := Js.endsWith range "]" |}
  /\ (forall (open close : ascii) (inner : string),
        open = "["%char \/ open = "("%char ->
        close = "]"%char \/ close = ")"%char ->
        range = String open (inner ++ String close "") ->
        content = inner
        /\ (includeMin (parseVersionRange range) = true <-> open = "["%char)
        /\ (includeMax (parseVersionRange range) = true <-> close = "]"%char))
  /\ (Js.all (fun c => negb (Ascii.eqb c ",")) afterFirst = true ->
      Js.trim lowerText = lowerText ->
      Js.trim afterFirst = afterFirst ->
      parseVersionRange range = specParseVersionRange range).
Proof.
  intros content lowerText afterFirst upperText.
  assert (Hparse :
    parseVersionRange range
    = {| minVersion := boundOfText (Js.trim lowerText);
         maxVersion := boundOfText (Js.trim upperText);
         includeMin := Js.startsWith range "[";
         includeMax := Js.endsWith range "]" |}).
  { unfold parseVersionRange. now rewrite boundAt_first, boundAt_second. }
  split; [exact Hparse|]. split.
  - intros open close inner Hopen Hclose ->.
    split; [now apply cleanRange_delimited|].
    change (includeMin (parseVersionRange
                          (String open (inner ++ String close ""))))
      with (Ascii.eqb open "[").
    change (includeMax (parseVersionRange
                          (String open (inner ++ String close ""))))
      with (Js.endsWith (String open inner ++ String close "") "]").
    rewrite endsWith_last.
    split; (split; [apply Ascii.eqb_eq | intros ->; apply Ascii.eqb_refl]).
  - intros Hcomma Hlower Hupper. rewrite Hparse.
    unfold specParseVersionRange.
    fold content. unfold upperText.
    rewrite (splitFirstComma_no_comma afterFirst Hcomma). simpl.
    rewrite Hlower, Hupper. unfold lowerText, afterFirst.
    now destruct (splitFirstComma content).
Qed.

(** C8 is false as stated.  With a second comma the upper bound stops at
    it, where the split on the first comma keeps the rest of the content;
    and white space around a text is trimmed away. *)
Lemma parseVersionRange_splits_at_every_comma :
  parseVersionRange "[1.0,2.0,3.0]" <> specParseVersionRange "[1.0,2.0,3.0]"
  /\ maxVersion (parseVersionRange "[1.0,2.0,3.0]") = Some "2.0"
  /\ maxVersion (specParseVersionRange "[1.0,2.0,3.0]") = Some "2.0,3.0"
  /\ minVersion (parseVersionRange "[ 1.0,2.0]") = Some "1.0"
  /\ minVersion (specParseVersionRange "[ 1.0,2.0]") = Some " 1.0".
Proof. repeat split. vm_compute. discriminate. Qed.

Lemma parseVersionRange_bounds_witness :
  parseVersionRange "[1.5,2.0)" = specParseVersionRange "[1.5,2.0)"
  /\ parseVersionRange "[1.5,2.0)"
     = {| minVersion := Some "1.5"; maxVersion := Some "2.0";
          includeMin := true; includeMax := false |}.
Proof.
  destruct (parseVersionRange_bounds "[1.5,2.0)") as (Hshape & _ & Hspec).
  split.
  - apply Hspec; reflexivity.
  - exact Hshape.
Defined.

(** *** Range matching and resolution *)

Lemma filter_first_match {X : Type} (f : X -> bool) (l : list X) :
  (exists x, In x l /\ f x = true) ->
  exists before first after,
    l = (before ++ first :: after)%list
    /\ (forall u, In u before -> f u = false)
    /\ f first = true
    /\ filter f l = first :: filter f after.
Proof.
  induction l as [|y l IH]; intros [x [Hin Hfx]]; [contradiction|].
  destruct (f y) eqn:Hfy.
  - exists [], y, l. simpl. rewrite Hfy. repeat split. intros u [].
  - destruct Hin as [->|Hin]; [congruence|].
    destruct IH as (before & first & after & Hl & Hbefore & Hfirst & Hfilter).
    { now exists x. }
    exists (y :: before), first, after. simpl. rewrite Hfy, Hl.
    repeat split; try assumption.
    + intros u [<-|Hu]; [assumption | now apply Hbefore].
    + now rewrite <- Hl.
Qed.

Lemma filter_no_match {X : Type} (f : X -> bool) (l : list X) :
  (forall x, In x l -> f x = false) -> filter f l = [].
Proof.
  induction l as [|y l IH]; intros H; simpl; [reflexivity|].
  rewrite (H y (or_introl eq_refl)). apply IH.
  intros x Hx. apply H. now right.
Qed.

Section Resolution.

Variable localeCompare : string -> string -> Z.
Variable getLatestVersion : string -> string -> Outcome string.
Variable versionExists : string -> string -> string -> Outcome bool.
Variable getVersions : string -> string -> Outcome (list string).

Abbreviation compare := (compareVersions localeCompare).
Abbreviation resolveRange := (resolveVersionRange localeCompare getVersions).
Abbreviation resolve :=
  (resolveVersion localeCompare getLatestVersion versionExists getVersions).

Lemma versionMatchesRange_iff (version : string) (minV maxV : option string)
    (inclMin inclMax : bool) :
  versionMatchesRange localeCompare version minV maxV inclMin inclMax = true
  <-> (forall lower, present minV = Some lower ->
         if inclMin then compare version lower >= 0
         else compare version lower > 0)
      /\ (forall upper, present maxV = Some upper ->
            if inclMax then compare version upper <= 0
            else compare version upper < 0).
Proof.
  unfold versionMatchesRange.
  destruct (present minV) as [lower|], (present maxV) as [upper|];
    destruct inclMin, inclMax;
    repeat match goal with
    | |- context [?x <? ?y] => destruct (Z.ltb_spec x y)
    | |- context [?x <=? ?y] => destruct (Z.leb_spec x y)
    | |- context [?x >? ?y] => destruct (Z.gtb_spec x y)
    | |- context [?x >=? ?y] => destruct (Z.geb_spec x y)
    end;
    (split;
     [ intros Hm; try discriminate Hm; split; intros b [= <-]; lia
     | intros [Hlo Hhi];
       try (specialize (Hlo _ eq_refl));
       try (specialize (Hhi _ eq_refl));
       try reflexivity; exfalso; lia ]).
Qed.

Lemma present_parsed (range : string) :
  present (minVersion (parseVersionRange range))
  = minVersion (parseVersionRange range)
  /\ present (maxVersion (parseVersionRange range))
     = maxVersion (parseVersionRange range).
Proof.
  unfold parseVersionRange, present. simpl. split.
  - destruct (boundAt _ 0) as [b|] eqn:Hb; [|reflexivity].
    now rewrite (boundAt_truthy _ _ _ Hb).
  - destruct (boundAt _ 1) as [b|] eqn:Hb; [|reflexivity].
    now rewrite (boundAt_truthy _ _ _ Hb).
Qed.

Lemma sortedDescending_later (before : list string) :
  forall (first : string) (after : list string),
  sortedDescending localeCompare (before ++ first :: after)%list = true ->
  forall u, In u after -> compare first u >= 0.
Proof.
  induction before as [|b before IH]; intros first after Hsorted u Hu.
  - simpl in Hsorted. apply andb_true_iff in Hsorted.
    destruct Hsorted as [Hall _].
    pose proof (proj1 (forallb_forall _ _) Hall u Hu) as Hge.
    simpl in Hge. destruct (Z.geb_spec (compare first u) 0); [lia|discriminate].
  - simpl in Hsorted. apply andb_true_iff in Hsorted.
    destruct Hsorted as [_ Hrest]. now apply (IH first after).
Qed.

(** The first match of a list sorted descending is its highest match. *)
Lemma first_match_highest (f : string -> bool)
    (before : list string) (first : string) (after : list string) :
  (forall u, In u before -> f u = false) ->
  sortedDescending localeCompare (before ++ first :: after)%list = true ->
  forall u, In u (before ++ first :: after)%list -> f u = true ->
            compare first u >= 0.
Proof.
  intros Hbefore Hsorted u Hu Hfu.
  apply in_app_or in Hu. destruct Hu as [Hu|[<-|Hu]].
  - rewrite (Hbefore u Hu) in Hfu. discriminate.
  - rewrite compareVersions_same. lia.
  - now apply (sortedDescending_later before first after).
Qed.

(** C4.  With the known versions [versions] returned by the registry,
    a version matches the parsed range iff it respects each present bound
    with its inclusivity; range resolution fails with [VersionNotFoundError]
    carrying the original range string when no known version matches, and
    otherwise returns the first known version that matches, which is the
    highest match when the list is sorted descending.  For the known
    versions 2.1.0, 2.0.0, 1.9.0, 1.8.0, 1.5.0, 1.4.0 and the range
    [[1.5,2.0)] the result is 1.9.0. *)
Theorem resolveVersionRange_first_match
    (groupId artifactId range : string) (versions : list string) :
  getVersions groupId artifactId = Returned versions ->
  let r := parseVersionRange range in
  let matches := fun version =>
    versionMatchesRange localeCompare version (minVersion r) (maxVersion r)
      (includeMin r) (includeMax r) in
  (forall version,
     matches version = true
     <-> (forall lower, minVersion r = Some lower ->
            if includeMin r then compare version lower >= 0
            else compare version lower > 0)
         /\ (forall upper, maxVersion r = Some upper ->
               if includeMax r then compare version upper <= 0
               else compare version upper < 0))
  /\ ((forall version, In version versions -> matches version = false) ->
      resolveRange groupId artifactId range
      = Threw (ThrownMcp
                 (VersionNotFoundError (groupId ++ ":" ++ artifactId) range)))
  /\ ((exists version, In version versions /\ matches version = true) ->
      exists before first after,
        versions = (before ++ first :: after)%list
        /\ (forall u, In u before -> matches u = false)
        /\ matches first = true
        /\ resolveRange groupId artifactId range = Returned first
        /\ (sortedDescending localeCompare versions = true ->
            forall u, In u versions -> matches u = true ->
                      compare first u >= 0))
  /\ (versions = ["2.1.0"; "2.0.0"; "1.9.0"; "1.8.0"; "1.5.0"; "1.4.0"] ->
      resolveRange groupId artifactId "[1.5,2.0)" = Returned "1.9.0").
Proof.
  intros Hget r matches. split; [|split; [|split]].
  - intros version. unfold matches.
    rewrite versionMatchesRange_iff.
    destruct (present_parsed range) as [Hmin Hmax].
    fold r in Hmin, Hmax. now rewrite Hmin, Hmax.
  - intros Hnone. unfold resolveVersionRange, matchingVersions.
    rewrite Hget. fold r. fold matches.
    now rewrite (filter_no_match matches versions Hnone).
  - intros Hsome.
    destruct (filter_first_match matches versions Hsome)
      as (before & first & after & Hl & Hbefore & Hfirst & Hfilter).
    exists before, first, after.
    split; [exact Hl|]. split; [exact Hbefore|]. split; [exact Hfirst|].
    split.
    + unfold resolveVersionRange, matchingVersions.
      rewrite Hget. fold r. fold matches. now rewrite Hfilter.
    + rewrite Hl. now apply first_match_highest.
  - intros ->. unfold resolveVersionRange. rewrite Hget. reflexivity.
Qed.

Lemma enclosed_delimited (open close : ascii) (inner : string) :
  enclosed (String open (inner ++ String close "")) = inner.
Proof.
  unfold enclosed. induction inner as [|c inner IH]; [reflexivity|].
  change (String c inner ++ String close "")
    with (String c (inner ++ String close "")).
  change (String.length (String c (inner ++ String close "")) - 1)%nat
    with (String.length (inner ++ String close "") - 0)%nat.
  rewrite Nat.sub_0_r.
  destruct (String.length (inner ++ String close "")) as [|n] eqn:Hlen.
  - destruct inner; discriminate.
  - simpl. f_equal. simpl in IH. now rewrite Nat.sub_0_r in IH.
Qed.

Lemma isVersionRange_delimited (open close : ascii) (inner : string) :
  open = "["%char \/ open = "("%char ->
  close = "]"%char \/ close = ")"%char ->
  inner <> "" ->
  Js.all (fun c => negb (Js.isLineTerminator c)) inner = true ->
  isVersionRange (String open (inner ++ String close "")) = true.
Proof.
  intros Hopen Hclose Hinner Hline. unfold isVersionRange.
  apply existsb_exists. exists (open, close). split.
  - destruct Hopen as [-> | ->], Hclose as [-> | ->]; simpl; tauto.
  - simpl. rewrite Ascii.eqb_refl. simpl.
    now apply innerThenClose_delimited.
Qed.

Lemma resolveVersion_delimited (groupId artifactId : string)
    (open : ascii) (rest : string) :
  open = "["%char \/ open = "("%char ->
  isVersionRange (String open rest) = true ->
  resolve groupId artifactId (String open rest)
  = resolveRange groupId artifactId (String open rest).
Proof.
  intros Hopen Hrange. unfold resolveVersion. rewrite Hrange.
  destruct Hopen as [-> | ->]; reflexivity.
Qed.

(** C10, as amended.  A specifier made of an opening bracket or
    parenthesis, an enclosed text that is not empty and holds neither a
    comma nor a line terminator, and a closing bracket or parenthesis, is
    classified as a range.  Its upper bound is absent; its lower bound is
    the enclosed text trimmed of surrounding white space (absent when
    nothing is left), inclusive iff the opening delimiter is a left bracket.
    So it resolves to the first known version that satisfies the lower
    bound, the highest such version of a list sorted descending, and not to
    the enclosed version itself: with the known versions 2.0.0 and 1.0,
    [[1.0]] resolves to 2.0.0. *)
Theorem bracketed_version_is_lower_bound
    (groupId artifactId : string) (open close : ascii) (inner : string) :
  open = "["%char \/ open = "("%char ->
  close = "]"%char \/ close = ")"%char ->
  inner <> "" ->
  Js.all (fun c => negb (Js.isLineTerminator c)) inner = true ->
  Js.all (fun c => negb (Ascii.eqb c ",")) inner = true ->
  let spec := String open (inner ++ String close "") in
  let lower := boundOfText (Js.trim inner) in
  let matches := fun version =>
    versionMatchesRange localeCompare version lower None
      (Ascii.eqb open "[") (Ascii.eqb close "]") in
  enclosed spec = inner
  /\ isVersionRange spec = true
  /\ parseVersionRange spec
     = {| minVersion := lower; maxVersion := None;
          includeMin := Ascii.eqb open "[";
          includeMax := Ascii.eqb close "]" |}
  /\ (Js.trim inner = inner ->
      minVersion (parseVersionRange spec) = Some (enclosed spec))
  /\ resolve groupId artifactId spec = resolveRange groupId artifactId spec
  /\ (forall version,
        matches version = true
        <-> (forall bound, lower = Some bound ->
               if Ascii.eqb open "[" then compare version bound >= 0
               else compare version bound > 0))
  /\ (forall versions,
        getVersions groupId artifactId = Returned versions ->
        ((forall version, In version versions -> matches version = false) ->
         resolve groupId artifactId spec
         = Threw (ThrownMcp
                    (VersionNotFoundError (groupId ++ ":" ++ artifactId)
                       spec)))
        /\ ((exists version, In version versions /\ matches version = true) ->
            exists before first after,
              versions = (before ++ first :: after)%list
              /\ (forall u, In u before -> matches u = false)
              /\ matches first = true
              /\ resolve groupId artifactId spec = Returned first
              /\ (sortedDescending localeCompare versions = true ->
                  forall u, In u versions -> matches u = true ->
                            compare first u >= 0)))
  /\ (getVersions groupId artifactId = Returned ["2.0.0"; "1.0"] ->
      resolve groupId artifactId "[1.0]" = Returned "2.0.0").
Proof.
  intros Hopen Hclose Hinner Hline Hcomma spec lower matches.
  assert (Hrange : isVersionRange spec = true)
    by now apply isVersionRange_delimited.
  assert (Hparse :
    parseVersionRange spec
    = {| minVersion := lower; maxVersion := None;
         includeMin := Ascii.eqb open "[";
         includeMax := Ascii.eqb close "]" |}).
  { unfold parseVersionRange, spec.
    rewrite (cleanRange_delimited open close inner Hopen Hclose).
    rewrite (split_no_comma inner Hcomma).
    change (String open (inner ++ String close ""))
      with (String open inner ++ String close "").
    now rewrite endsWith_last. }
  assert (Hresolve :
    resolve groupId artifactId spec = resolveRange groupId artifactId spec)
    by now apply resolveVersion_delimited.
  assert (Hlower : present lower = lower).
  { unfold lower, boundOfText, present.
    destruct (Js.truthy (Js.trim inner)) eqn:Ht; [|reflexivity].
    now rewrite Ht. }
  split; [apply enclosed_delimited|].
  split; [exact Hrange|]. split; [exact Hparse|]. split.
  { intros Htrim. rewrite Hparse. unfold spec.
    rewrite (enclosed_delimited open close inner).
    cbn [minVersion]. unfold lower, boundOfText. rewrite Htrim.
    destruct inner; [congruence | reflexivity]. }
  split; [exact Hresolve|]. split.
  { intros version. unfold matches. rewrite versionMatchesRange_iff.
    rewrite Hlower. split.
    - intros [Hlo _]. exact Hlo.
    - intros Hlo. split; [exact Hlo|]. intros upper Hup. discriminate Hup. }
  split.
  { intros versions Hget.
    assert (Hfilter : matchingVersions localeCompare versions spec
                      = filter matches versions).
    { unfold matchingVersions. now rewrite Hparse. }
    split.
    - intros Hnone. rewrite Hresolve. unfold resolveVersionRange.
      rewrite Hget, Hfilter.
      now rewrite (filter_no_match matches versions Hnone).
    - intros Hsome.
      destruct (filter_first_match matches versions Hsome)
        as (before & first & after & Hl & Hbefore & Hfirst & Hfound).
      exists before, first, after.
      split; [exact Hl|]. split; [exact Hbefore|]. split; [exact Hfirst|].
      split.
      + rewrite Hresolve. unfold resolveVersionRange.
        now rewrite Hget, Hfilter, Hfound.
      + rewrite Hl. now apply first_match_highest. }
  intros Hget.
  change (resolve groupId artifactId "[1.0]")
    with (resolveRange groupId artifactId "[1.0]").
  unfold resolveVersionRange. now rewrite Hget.
Qed.

End Resolution.

Lemma resolveVersionRange_first_match_witness :
  let known := ["2.1.0"; "2.0.0"; "1.9.0"; "1.8.0"; "1.5.0"; "1.4.0"] in
  let getVersions := fun _ _ : string => Returned known in
  resolveVersionRange codeUnitCompare getVersions
    "com.example" "test-artifact" "[1.5,2.0)"
  = Returned "1.9.0"
  /\ resolveVersionRange codeUnitCompare getVersions
       "com.example" "test-artifact" "[3.0,4.0)"
     = Threw (ThrownMcp
                (VersionNotFoundError "com.example:test-artifact" "[3.0,4.0)")).
Proof.
  intros known getVersions.
  destruct (resolveVersionRange_first_match codeUnitCompare getVersions
              "com.example" "test-artifact" "[1.5,2.0)" known eq_refl)
    as (_ & _ & _ & Hexample).
  destruct (resolveVersionRange_first_match codeUnitCompare getVersions
              "com.example" "test-artifact" "[3.0,4.0)" known eq_refl)
    as (_ & Hnone & _).
  split.
  - now apply Hexample.
  - apply Hnone. intros version Hin.
    repeat (destruct Hin as [<-|Hin]; [reflexivity|]). contradiction.
Defined.

(** C10 is false as stated.  The lower bound of ["[ 1.0 ]"] is not the
    enclosed text but that text trimmed, and ["[]"], delimited at both ends
    without a comma, is not a range. *)
Lemma bracketed_version_is_trimmed :
  enclosed "[ 1.0 ]" = " 1.0 "
  /\ minVersion (parseVersionRange "[ 1.0 ]") = Some "1.0"
  /\ minVersion (parseVersionRange "[ 1.0 ]") <> Some (enclosed "[ 1.0 ]")
  /\ isVersionRange "[]" = false.
Proof. repeat split. vm_compute. discriminate. Qed.

Lemma bracketed_version_is_lower_bound_witness :
  let getLatestVersion := fun _ _ : string => Returned "2.0.0" in
  let versionExists := fun _ _ _ : string => Returned true in
  let getVersions := fun _ _ : string => Returned ["2.0.0"; "1.0"] in
  resolveVersion codeUnitCompare getLatestVersion versionExists getVersions
    "com.example" "test-artifact" "[1.0]"
  = Returned "2.0.0"
  /\ parseVersionRange "[1.0]"
     = {| minVersion := Some "1.0"; maxVersion := None;
          includeMin := true; includeMax := true |}.
Proof.
  intros getLatestVersion versionExists getVersions.
  assert (Hinner : "1.0" <> "") by discriminate.
  destruct (bracketed_version_is_lower_bound codeUnitCompare
              getLatestVersion versionExists getVersions
              "com.example" "test-artifact" "[" "]" "1.0"
              (or_introl eq_refl) (or_introl eq_refl) Hinner
              eq_refl eq_refl)
    as (_ & _ & Hparse & _ & _ & _ & _ & Hexample).
  split.
  - now apply Hexample.
  - exact Hparse.
Defined.

End VersionFacts.

(** ** The other cache operations *)

Module CacheOperationFacts.

Import CacheService MapFacts CacheFacts.

Section Facts.

Context {T : Type}.

Abbreviation Entry := (CacheEntry T).
Abbreviation Map := (list (string * CacheEntry T)).
Abbreviation Cache := (CacheService.t T).

Implicit Types (m : Map) (k key : string) (e : Entry) (c : Cache).

Lemma mapDelete_absent k m : mapGet k m = None -> mapDelete k m = m.
Proof.
  induction m as [|[k' e'] m IH]; simpl; [reflexivity|].
  destruct (String.eqb k' k); [discriminate|].
  intros H. now rewrite IH.
Qed.

(** X1.  [has] answers as [get] does and leaves the cache in the same
    state: it reports true exactly when [get] returns a value, and it
    deletes an expired entry just as [get] does. *)
Theorem has_agrees_with_get (now : Z) (key : string) (c : Cache) :
  snd (has now key c) = snd (get now key c)
  /\ (fst (has now key c) = true <-> exists v, fst (get now key c) = Some v)
  /\ (fst (has now key c) = false <-> fst (get now key c) = None).
Proof.
  unfold has, get. destruct (mapGet key (cache c)) as [e|].
  - destruct (now - timestamp e >? ttl e); simpl.
    + split; [reflexivity|]. split; split; try discriminate; trivial.
      intros [v Hv]. discriminate.
    + split; [reflexivity|]. split; split; try discriminate; trivial.
      intros _. now exists (data e).
  - simpl. split; [reflexivity|]. split; split; try discriminate; trivial.
    intros [v Hv]. discriminate.
Qed.

(** X2.  [delete] reports true exactly when the key was stored; after it
    the key is absent for [get] at any time, every other key reads as
    before, a second [delete] reports false, and deleting a key that is
    not stored changes nothing. *)
Theorem delete_removes_only_its_key (key : string) (c : Cache) :
  (fst (delete key c) = true <-> mapGet key (cache c) <> None)
  /\ (forall now, fst (get now key (snd (delete key c))) = None)
  /\ (forall k, k <> key ->
        mapGet k (cache (snd (delete key c))) = mapGet k (cache c))
  /\ fst (delete key (snd (delete key c))) = false
  /\ (fst (delete key c) = false -> snd (delete key c) = c).
Proof.
  unfold delete, mapHas. simpl. split; [|split; [|split; [|split]]].
  - destruct (mapGet key (cache c)); split; congruence.
  - intros now. unfold get. simpl. now rewrite mapGet_mapDelete_same.
  - intros k Hk. now apply mapGet_mapDelete_other.
  - now rewrite mapGet_mapDelete_same.
  - destruct (mapGet key (cache c)) eqn:Hg; [discriminate|].
    intros _. rewrite (mapDelete_absent _ _ Hg). now destruct c.
Qed.

(** X3.  [cleanup] removes exactly the expired entries: the map becomes
    its live entries in their insertion order.  It cannot be observed
    through [get] at the same instant, and running it again at that
    instant changes nothing. *)
Theorem cleanup_removes_exactly_expired (now : Z) (c : Cache) :
  NoDup (keys (cache c)) ->
  cache (cleanup now c) = filter (fun p => live now (snd p)) (cache c)
  /\ (forall k e, mapGet k (cache (cleanup now c)) = Some e ->
                  mapGet k (cache c) = Some e /\ now - timestamp e <= ttl e)
  /\ (forall k, fst (get now k (cleanup now c)) = fst (get now k c))
  /\ cleanup now (cleanup now c) = cleanup now c.
Proof.
  intros Hnd.
  assert (Hsweep : sweep now (cache c)
                   = filter (fun p => live now (snd p)) (cache c))
    by now apply sweep_filter.
  assert (Hget : forall k,
    mapGet k (sweep now (cache c))
    = match mapGet k (cache c) with
      | Some e => if live now e then Some e else None
      | None => None
      end).
  { intros k. rewrite Hsweep. now apply mapGet_filter. }
  split; [exact Hsweep|]. split; [|split].
  - intros k e. simpl. rewrite Hget.
    destruct (mapGet k (cache c)) as [e'|]; [|discriminate].
    unfold live, expired.
    destruct (Z.gtb_spec (now - timestamp e') (ttl e')); simpl;
      [discriminate|].
    intros [= <-]. split; [reflexivity | lia].
  - intros k. unfold get. simpl. rewrite Hget.
    destruct (mapGet k (cache c)) as [e|]; [|reflexivity].
    unfold live, expired.
    destruct (now - timestamp e >? ttl e) eqn:Hexp; simpl.
    + reflexivity.
    + now rewrite Hexp.
  - assert (Hidem : sweep now (sweep now (cache c)) = sweep now (cache c)).
    { rewrite (sweep_filter now (sweep now (cache c)))
        by (rewrite Hsweep; now apply NoDup_filter_keys).
      rewrite Hsweep. clear. induction (cache c) as [|p m IH];
        [reflexivity|].
      simpl. destruct (live now (snd p)) eqn:Hl; simpl.
      - rewrite Hl. now f_equal.
      - exact IH. }
    unfold cleanup. simpl. now rewrite Hidem.
Qed.

(** X4.  Reading is idempotent: a second [get] of the same key at the same
    instant returns what the first returned and leaves the cache as the
    first left it.  And expiry is final: a key that reads as absent at
    some instant reads as absent at every later instant. *)
Theorem get_is_idempotent (now : Z) (key : string) (c : Cache) :
  get now key (snd (get now key c))
  = (fst (get now key c), snd (get now key c))
  /\ (forall later, now <= later ->
        fst (get now key c) = None -> fst (get later key c) = None).
Proof.
  unfold get. destruct (mapGet key (cache c)) as [e|] eqn:Hg.
  - destruct (Z.gtb_spec (now - timestamp e) (ttl e)) as [Hexp|Hlive]; simpl.
    + split.
      * now rewrite mapGet_mapDelete_same.
      * intros later Hlater _.
        destruct (Z.gtb_spec (later - timestamp e) (ttl e));
          [reflexivity | lia].
    + split.
      * rewrite Hg.
        destruct (Z.gtb_spec (now - timestamp e) (ttl e));
          [lia | reflexivity].
      * discriminate.
  - simpl. rewrite Hg. split; [reflexivity|]. intros later _ _. reflexivity.
Qed.

(** *** Eviction order *)






End Facts.


Lemma cleanup_removes_exactly_expired_witness :
  let c :=
    mkCache [("expired-key", mkEntry "expired-data" 0 50);
             ("valid-key", mkEntry "valid-data" 0 1000)] 100 100 in
  cache (cleanup 60 c) = [("valid-key", mkEntry "valid-data" 0 1000)]
  /\ fst (get 60 "valid-key" (cleanup 60 c)) = Some "valid-data".
Proof.
  intros c.
  assert (Hnd : NoDup (keys (cache c))).
  { repeat constructor; simpl; intuition discriminate. }
  destruct (cleanup_removes_exactly_expired 60 c Hnd) as (Hshape & _ & Hget & _).
  split; [exact Hshape|]. rewrite Hget. reflexivity.
Defined.

End CacheOperationFacts.

(** ** The key generators *)

Module KeyFacts.

Import CacheKeys Validators.

Lemma all_keep (p : ascii -> bool) (s : string) :
  Js.all p (Js.keep p s) = true.
Proof.
  induction s as [|c s IH]; simpl; [reflexivity|].
  destruct (p c) eqn:Hp; simpl; [now rewrite Hp|exact IH].
Qed.

Lemma all_substring (p : ascii -> bool) (n : nat) : forall s,
  Js.all p s = true -> Js.all p (String.substring 0 n s) = true.
Proof.
  induction n as [|n IH]; intros [|c s] H; try reflexivity.
  simpl in *. apply andb_true_iff in H. destruct H as [Hc Hs].
  now rewrite Hc, IH.
Qed.

Lemma length_substring (n : nat) : forall s,
  (String.length (String.substring 0 n s) <= n)%nat.
Proof.
  induction n as [|n IH]; intros [|c s]; simpl; try lia.
  specialize (IH s). lia.
Qed.

(** X6.  Whatever the query and the numeric arguments, a search key is the
    prefix [search:] followed by at most sixteen characters, all of them
    letters or digits: its length never exceeds 23. *)
Theorem generateSearchKey_is_bounded
    (JsNumber : Type) (numberToString : JsNumber -> string)
    (query : string) (limit quality popularity : option JsNumber) :
  exists hash,
    generateSearchKey JsNumber numberToString query limit quality popularity
    = "search:" ++ hash
    /\ (String.length hash <= 16)%nat
    /\ Js.all Js.isAlnum hash = true
    /\ (String.length
          (generateSearchKey JsNumber numberToString query
             limit quality popularity) <= 23)%nat.
Proof.
  unfold generateSearchKey.
  set (encoded := Js.keep Js.isAlnum _).
  exists (String.substring 0 16 encoded).
  pose proof (length_substring 16 encoded) as Hlen.
  split; [reflexivity|]. split; [exact Hlen|]. split.
  - apply all_substring. apply all_keep.
  - simpl. lia.
Qed.

Lemma isIdChar_not_colon (c : ascii) :
  isIdChar c = true -> Ascii.eqb c ":" = false.
Proof.
  destruct (Ascii.eqb_spec c ":") as [->|]; [discriminate | reflexivity].
Qed.

Lemma valid_id_has_no_colon (s : string) :
  matchesIdPattern s = true ->
  Js.all (fun c => negb (Ascii.eqb c ":")) s = true.
Proof.
  unfold matchesIdPattern. intros H. apply andb_true_iff in H.
  destruct H as [_ H]. induction s as [|c s IH]; [reflexivity|].
  simpl in *. apply andb_true_iff in H. destruct H as [Hc Hs].
  now rewrite (isIdChar_not_colon c Hc), IH.
Qed.

(** Two joined pairs are equal only if their parts are, when the first
    parts hold no separator. *)
Lemma colon_join_injective (x : string) : forall x' y y',
  Js.all (fun c => negb (Ascii.eqb c ":")) x = true ->
  Js.all (fun c => negb (Ascii.eqb c ":")) x' = true ->
  x ++ ":" ++ y = x' ++ ":" ++ y' ->
  x = x' /\ y = y'.
Proof.
  induction x as [|c x IH]; intros [|c' x'] y y' Hx Hx' Heq; simpl in *.
  - injection Heq as ->. now split.
  - injection Heq as <- _. discriminate.
  - injection Heq as -> _. discriminate.
  - injection Heq as -> Heq.
    apply andb_true_iff in Hx, Hx'.
    destruct (IH x' y y' (proj2 Hx) (proj2 Hx') Heq) as [-> ->]. now split.
Qed.

(** X7.  The keys of validated coordinates never collide: for group ids
    and artifact ids that pass the validators, two version-list keys, two
    existence keys or two POM keys are equal only when their coordinates
    are. *)
Theorem coordinate_keys_are_injective
    (groupId artifactId groupId' artifactId' : string) :
  isValidGroupId groupId = true ->
  isValidGroupId groupId' = true ->
  isValidArtifactId artifactId = true ->
  isValidArtifactId artifactId' = true ->
  (generateVersionsKey groupId artifactId
   = generateVersionsKey groupId' artifactId' ->
   groupId = groupId' /\ artifactId = artifactId')
  /\ (generatePackageExistsKey groupId artifactId
      = generatePackageExistsKey groupId' artifactId' ->
      groupId = groupId' /\ artifactId = artifactId')
  /\ (forall version version',
        generatePomKey groupId artifactId version
        = generatePomKey groupId' artifactId' version' ->
        groupId = groupId' /\ artifactId = artifactId' /\ version = version').
Proof.
  intros Hg Hg' Ha Ha'.
  unfold isValidGroupId, isValidArtifactId in *.
  apply andb_true_iff in Hg, Hg', Ha, Ha'.
  pose proof (valid_id_has_no_colon _ (proj1 Hg)) as Cg.
  pose proof (valid_id_has_no_colon _ (proj1 Hg')) as Cg'.
  pose proof (valid_id_has_no_colon _ (proj1 Ha)) as Ca.
  pose proof (valid_id_has_no_colon _ (proj1 Ha')) as Ca'.
  split; [|split].
  - unfold generateVersionsKey. intros H. simpl in H.
    injection H as H. now apply colon_join_injective.
  - unfold generatePackageExistsKey. intros H. simpl in H.
    injection H as H. now apply colon_join_injective.
  - unfold generatePomKey. intros version version' H. simpl in H.
    injection H as H.
    destruct (colon_join_injective _ _ _ _ Cg Cg' H) as [-> H'].
    destruct (colon_join_injective _ _ _ _ Ca Ca' H') as [-> ->].
    repeat split.
Qed.

(** X8.  The key spaces of the generators are disjoint: a key of one
    generator is never a key of another, whatever their arguments. *)
Theorem key_namespaces_are_disjoint
    (JsNumber : Type) (numberToString : JsNumber -> string)
    (g1 a1 g2 a2 g3 a3 v3 g4 a4 g5 a5 query : string)
    (v4 v5 : option string) (limit quality popularity : option JsNumber) :
  let versions := generateVersionsKey g1 a1 in
  let existence := generatePackageExistsKey g2 a2 in
  let pom := generatePomKey g3 a3 v3 in
  let info := generatePackageInfoKey g4 a4 v4 in
  let readme := generatePackageReadmeKey g5 a5 v5 in
  let search :=
    generateSearchKey JsNumber numberToString query
      limit quality popularity in
  versions <> existence /\ versions <> pom /\ versions <> info
  /\ versions <> readme /\ versions <> search
  /\ existence <> pom /\ existence <> info /\ existence <> readme
  /\ existence <> search
  /\ pom <> info /\ pom <> readme /\ pom <> search
  /\ info <> readme /\ info <> search
  /\ readme <> search.
Proof.
  intros versions existence pom info readme search.
  destruct (generateSearchKey_is_bounded JsNumber numberToString query
              limit quality popularity) as (hash & Hsearch & _).
  fold search in Hsearch.
  subst versions existence pom info readme. rewrite Hsearch.
  unfold generateVersionsKey, generatePackageExistsKey, generatePomKey,
    generatePackageInfoKey, generatePackageReadmeKey.
  repeat split; intros H; simpl in H; congruence.
Qed.

Lemma coordinate_keys_are_injective_witness :
  generateVersionsKey "org.springframework" "spring-core"
  <> generateVersionsKey "org.springframework" "spring-web".
Proof.
  destruct (coordinate_keys_are_injective
              "org.springframework" "spring-core"
              "org.springframework" "spring-web"
              eq_refl eq_refl eq_refl eq_refl) as (Hversions & _ & _).
  intros Heq. destruct (Hversions Heq) as [_ Habs]. discriminate Habs.
Defined.

End KeyFacts.

(** ** More on errors and retries *)

Module ErrorFacts.

Import ErrorHandler RetryFacts.

Section Runs.

Context {W A : Type}.
Variable operation : W -> Outcome A * W.
Variable maxRetries : Z.
Variable baseDelay : Z.
Variable context : string.

Abbreviation loop := (attempts W A operation maxRetries baseDelay context).

Lemma attempts_throw_typed (remaining : nat) : forall attempt w lastError e,
  outcomeOf (loop remaining attempt w lastError) = Threw e ->
  isTyped e = true.
Proof.
  induction remaining as [|n IH]; intros attempt w lastError e; simpl.
  - unfold outcomeOf. simpl. now intros [= <-].
  - destruct (operation w) as [[v|error] w'].
    + unfold outcomeOf. simpl. discriminate.
    + destruct (isClientError error) eqn:Hclient.
      * unfold outcomeOf. simpl. intros [= <-].
        destruct (isClientError_inv error Hclient) as (m & s & -> & _).
        reflexivity.
      * destruct (attempt =? maxRetries).
        -- unfold outcomeOf. simpl. now intros [= <-].
        -- specialize (IH (attempt + 1) w' error e).
           destruct (loop n (attempt + 1) w' error) as [[events outcome] w''].
           exact IH.
Qed.

Lemma attempts_succeed_after_failures (k : nat) :
  forall remaining attempt w lastError wk v w',
  Z.of_nat remaining = maxRetries - attempt + 1 ->
  (k < remaining)%nat ->
  afterFailures W A operation k w = Some wk ->
  operation wk = (Returned v, w') ->
  loop remaining attempt w lastError
  = (retryTrace baseDelay attempt (S k), Returned v, w').
Proof.
  induction k as [|k IH];
    intros remaining attempt w lastError wk v w' Hrel Hlt Hfail Hok.
  - simpl in Hfail. injection Hfail as <-.
    destruct remaining as [|n]; [lia|]. simpl. now rewrite Hok.
  - destruct remaining as [|n]; [lia|]. simpl in Hfail |- *.
    destruct (operation w) as [[v0|error] w1]; [discriminate|].
    destruct (isClientError error); [discriminate|].
    destruct (Z.eqb_spec attempt maxRetries) as [Heq|Hne]; [lia|].
    rewrite (IH n (attempt + 1) w1 error wk v w'); try assumption; try lia.
    reflexivity.
Qed.

Lemma total_sleep_retryTrace (k : nat) : forall attempt,
  1 <= attempt ->
  fold_right Z.add 0 (sleeps (retryTrace baseDelay attempt k))
  = baseDelay * 2 ^ (attempt - 1) * (2 ^ Z.of_nat (Nat.pred k) - 1).
Proof.
  induction k as [|k IH]; intros attempt Hattempt.
  - simpl. lia.
  - destruct k as [|k].
    + simpl. lia.
    + change (sleeps (retryTrace baseDelay attempt (S (S k))))
        with (baseDelay * 2 ^ (attempt - 1)
              :: sleeps (retryTrace baseDelay (attempt + 1) (S k))).
      cbn [fold_right]. rewrite IH by lia.
      replace (attempt + 1 - 1) with (attempt - 1 + 1) by lia.
      rewrite Z.pow_add_r by lia.
      cbn [Nat.pred].
      replace (Z.of_nat (S k)) with (Z.of_nat k + 1) by lia.
      rewrite (Z.pow_add_r 2 (Z.of_nat k) 1) by lia.
      lia.
Qed.

End Runs.

(** X9.  [withRetry] never lets an untyped error escape: whatever the
    operation does and whatever the bounds are, an error thrown by
    [withRetry] is a [PackageReadmeMcpError]. *)
Theorem withRetry_throws_only_typed_errors
    (W A : Type) (operation : W -> Outcome A * W)
    (maxRetries baseDelay : Z) (context : string) (w : W) (e : Thrown) :
  outcomeOf (withRetry W A operation maxRetries baseDelay context w)
  = Threw e ->
  exists m, e = ThrownMcp m.
Proof.
  unfold withRetry. intros H.
  apply attempts_throw_typed in H.
  destruct e as [m| |]; try discriminate. now exists m.
Qed.

(** X10.  An operation that fails [k] times in a row with errors that are
    not client errors and then returns [v] makes [withRetry] return [v],
    provided [k] is below the bound: the operation is invoked [k + 1]
    times, with the back-off sleeps of attempts 1 to [k] in between, and
    the world is the one the successful invocation left. *)
Theorem withRetry_returns_after_failures
    (W A : Type) (operation : W -> Outcome A * W)
    (maxRetries baseDelay : Z) (context : string)
    (k : nat) (w wk w' : W) (v : A) :
  Z.of_nat k < maxRetries ->
  afterFailures W A operation k w = Some wk ->
  operation wk = (Returned v, w') ->
  withRetry W A operation maxRetries baseDelay context w
  = (retryTrace baseDelay 1 (S k), Returned v, w')
  /\ invocations (retryTrace baseDelay 1 (S k)) = S k
  /\ sleeps (retryTrace baseDelay 1 (S k))
     = map (fun attempt => baseDelay * 2 ^ (Z.of_nat attempt - 1)) (seq 1 k).
Proof.
  intros Hk Hfail Hok. split; [|split].
  - unfold withRetry.
    apply (attempts_succeed_after_failures operation maxRetries baseDelay
             context k (Z.to_nat maxRetries) 1 w undefinedValue wk v w');
      try assumption; lia.
  - apply invocations_retryTrace.
  - pose proof (sleeps_retryTrace baseDelay (S k) 1) as Hsleeps.
    replace (S k - 1)%nat with k in Hsleeps by lia. exact Hsleeps.
Qed.

(** X11.  The time [withRetry] spends sleeping is
    [baseDelay * (2 ^ (n - 1) - 1)] for a run of [n >= 1] invocations, and
    nothing for a run without invocation; with a non-negative [baseDelay]
    it never exceeds [baseDelay * (2 ^ (maxRetries - 1) - 1)]. *)
Theorem withRetry_total_sleep
    (W A : Type) (operation : W -> Outcome A * W)
    (maxRetries baseDelay : Z) (context : string) (w : W) :
  let events :=
    eventsOf (withRetry W A operation maxRetries baseDelay context w) in
  let total := fold_right Z.add 0 (sleeps events) in
  total = baseDelay * (2 ^ Z.of_nat (Nat.pred (invocations events)) - 1)
  /\ (0 <= baseDelay -> 1 <= maxRetries ->
      total <= baseDelay * (2 ^ (maxRetries - 1) - 1)).
Proof.
  intros events total. subst total events. unfold withRetry.
  assert (Hshape : exists k,
    (k <= Z.to_nat maxRetries)%nat
    /\ eventsOf (attempts W A operation maxRetries baseDelay context
                   (Z.to_nat maxRetries) 1 w undefinedValue)
       = retryTrace baseDelay 1 k).
  { destruct (Z_le_gt_dec 0 maxRetries) as [Hnonneg|Hneg].
    - destruct (attempts_trace operation maxRetries baseDelay context
                  (Z.to_nat maxRetries) 1 w undefinedValue)
        as (k & Hle & _ & Hev); [lia|].
      now exists k.
    - exists 0%nat. replace (Z.to_nat maxRetries) with 0%nat by lia.
      split; [lia | reflexivity]. }
  destruct Hshape as (k & Hle & ->).
  rewrite invocations_retryTrace, total_sleep_retryTrace by lia.
  replace (2 ^ (1 - 1)) with 1 by reflexivity.
  split; [lia|].
  intros Hdelay Hbound.
  assert (Hpow : 2 ^ Z.of_nat (Nat.pred k) <= 2 ^ (maxRetries - 1)).
  { apply Z.pow_le_mono_r; lia. }
  nia.
Qed.

(** X12.  [handleApiError] turns every error that is not yet typed into a
    typed one: a typed error is thrown again unchanged; an [Error] becomes
    a network error or a rate-limit error, both of which
    [isRetryableError] accepts; any other value becomes the
    [UNKNOWN_ERROR], which it refuses. *)
Theorem handleApiError_classifies (error : Thrown) (context : string) :
  match error with
  | ThrownMcp m => handleApiError error context = m
  | ThrownError name msg =>
      (errorClass (handleApiError error context) = NetworkErrorClass
       \/ handleApiError error context = RateLimitError context)
      /\ isRetryableError (ThrownMcp (handleApiError error context)) = true
  | ThrownValue rendering =>
      code (handleApiError error context) = "UNKNOWN_ERROR"
      /\ isRetryableError (ThrownMcp (handleApiError error context)) = false
  end.
Proof.
  destruct error as [m|name msg|rendering]; simpl.
  - reflexivity.
  - destruct (String.eqb name "TypeError" && Js.includes msg "fetch");
      [split; [now left | reflexivity]|].
    destruct (Js.includes msg "timeout" || Js.includes msg "ETIMEDOUT");
      [split; [now left | reflexivity]|].
    destruct (Js.includes msg "429" || Js.includes msg "rate limit");
      split; try reflexivity; [now right | now left].
  - split; reflexivity.
Qed.

(** X13.  What [isRetryableError] accepts, [withRetry] retries: for a typed
    error as the constructors build it (a rate-limit error carries status
    429, a network error carries none), [isRetryableError] and the client
    error test of [withRetry] never both hold. *)
Theorem retryable_errors_are_retried (m : McpError) :
  (errorClass m = RateLimitErrorClass -> statusCode m = Some 429) ->
  (errorClass m = NetworkErrorClass -> statusCode m = None) ->
  isRetryableError (ThrownMcp m) = true ->
  isClientError (ThrownMcp m) = false.
Proof.
  intros Hrate Hnet. unfold isRetryableError, isClientError.
  destruct (errorClass m) eqn:Hclass;
    try (rewrite (Hrate eq_refl); reflexivity);
    try (rewrite (Hnet eq_refl); reflexivity);
    destruct (statusCode m) as [s|]; try discriminate;
    destruct (Z.eqb_spec s 429); simpl;
    destruct (Z.geb_spec s 500); simpl; try discriminate; intros _;
    destruct (Z.eqb_spec s 0); simpl; try reflexivity;
    destruct (Z.geb_spec s 400); simpl; try reflexivity;
    destruct (Z.ltb_spec s 500); simpl; try reflexivity; try lia;
    destruct (Z.eqb_spec s 429); simpl; try reflexivity; lia.
Qed.

Lemma withRetry_throws_only_typed_errors_witness :
  let operation := fun calls : nat =>
    (Threw (A:=string) (ThrownError "Error" "Server error: 503"), S calls) in
  exists m,
    ThrownMcp (NetworkError "Server error: 503") = ThrownMcp m
    /\ outcomeOf (withRetry nat string operation 2 10 "test" 0%nat)
       = Threw (ThrownMcp m).
Proof.
  intros operation.
  destruct (withRetry_throws_only_typed_errors nat string operation 2 10
              "test" 0%nat (ThrownMcp (NetworkError "Server error: 503"))
              eq_refl) as [m Hm].
  exists m. split; [exact Hm|]. now rewrite <- Hm.
Defined.

Lemma withRetry_returns_after_failures_witness :
  let operation := fun calls : nat =>
    (match calls with
     | O => Threw (ThrownMcp (NetworkError "Network error"))
     | S _ => Returned "success"
     end, S calls) in
  withRetry nat string operation 3 100 "test" 0%nat
  = ([Invoked; Slept 100; Invoked], Returned "success", 2%nat).
Proof.
  intros operation.
  destruct (withRetry_returns_after_failures nat string operation 3 100
              "test" 1 0%nat 1%nat 2%nat "success")
    as (Hrun & _ & _); [lia | reflexivity | reflexivity |].
  exact Hrun.
Defined.

Lemma withRetry_total_sleep_witness :
  let operation := fun calls : nat =>
    (Threw (A:=string) (ThrownMcp (NetworkError "Persistent error")),
     S calls) in
  fold_right Z.add 0
    (sleeps (eventsOf (withRetry nat string operation 3 1000 "test" 0%nat)))
  <= 1000 * (2 ^ (3 - 1) - 1).
Proof.
  intros operation.
  destruct (withRetry_total_sleep nat string operation 3 1000 "test" 0%nat)
    as [_ Hbound].
  apply Hbound; lia.
Defined.

Lemma retryable_errors_are_retried_witness :
  isClientError (ThrownMcp (RateLimitError "Maven Central")) = false.
Proof.
  apply retryable_errors_are_retried.
  - reflexivity.
  - discriminate.
  - reflexivity.
Defined.

End ErrorFacts.

(** ** More on version specifiers *)

Module SpecifierFacts.

Import ErrorHandler VersionResolver VersionFacts Validators.

Lemma numericPrefix_parts (v : string) :
  fst (numericPrefix v) ++ snd (numericPrefix v) = v
  /\ Js.all MavenCentralApi.isDigitOrDot (fst (numericPrefix v)) = true.
Proof.
  induction v as [|c v [IHapp IHall]]; simpl; [now split|].
  unfold MavenCentralApi.isDigitOrDot in *.
  destruct (Js.isDigit c) eqn:Hd.
  - destruct (numericPrefix v) as [p r]. simpl in *.
    rewrite IHapp, Hd, IHall. now split.
  - destruct (Ascii.eqb c "." && startsWithDigit v) eqn:Hdot.
    + destruct (numericPrefix v) as [p r]. simpl in *.
      apply andb_true_iff in Hdot. destruct Hdot as [Hc _].
      rewrite IHapp, Hd, Hc, IHall. now split.
    + simpl. now split.
Qed.

Lemma all_app (p : ascii -> bool) (a b : string) :
  Js.all p (a ++ b) = Js.all p a && Js.all p b.
Proof.
  induction a as [|c a IH]; simpl; [reflexivity|].
  now rewrite IH, andb_assoc.
Qed.

Lemma all_weaken (p q : ascii -> bool) (s : string) :
  (forall c, p c = true -> q c = true) ->
  Js.all p s = true -> Js.all q s = true.
Proof.
  intros Hpq. induction s as [|c s IH]; simpl; [reflexivity|].
  intros H. apply andb_true_iff in H. destruct H as [Hc Hs].
  now rewrite (Hpq c Hc), IH.
Qed.

Lemma digitOrDot_isIdChar (c : ascii) :
  MavenCentralApi.isDigitOrDot c = true -> isIdChar c = true.
Proof.
  unfold MavenCentralApi.isDigitOrDot, isIdChar, Js.isAlnum.
  intros H. apply orb_true_iff in H. destruct H as [-> | ->].
  - reflexivity.
  - now rewrite !orb_true_r.
Qed.

Lemma suffixChar_isIdChar (c : ascii) :
  isSuffixChar c = true -> isIdChar c = true.
Proof.
  unfold isSuffixChar, isIdChar.
  destruct (Js.isAlnum c), (Ascii.eqb c "."), (Ascii.eqb c "-");
    simpl; try reflexivity; try discriminate.
  all: now rewrite ?orb_true_r.
Qed.

Lemma digit_is_no_delimiter (c : ascii) :
  Js.isDigit c = true ->
  Ascii.eqb c "[" = false /\ Ascii.eqb c "(" = false.
Proof.
  intros H. split.
  - destruct (Ascii.eqb_spec c "[") as [->|]; [discriminate | reflexivity].
  - destruct (Ascii.eqb_spec c "(") as [->|]; [discriminate | reflexivity].
Qed.

Lemma isVersionRange_starts (v : string) :
  isVersionRange v = true ->
  exists c rest, v = String c rest /\ (c = "["%char \/ c = "("%char).
Proof.
  unfold isVersionRange, rangePatterns. simpl.
  destruct v as [|c rest]; [discriminate|]. simpl.
  intros H. exists c, rest. split; [reflexivity|].
  destruct (Ascii.eqb_spec c "[") as [->|]; [now left|].
  destruct (Ascii.eqb_spec c "(") as [->|]; [now right|].
  simpl in H. discriminate.
Qed.

(** X14.  The kinds of specifier exclude each other: a string that
    [isSpecificVersion] accepts is neither a range nor [latest] nor empty,
    and a string that [isVersionRange] accepts is neither a specific
    version nor [latest] nor empty.  So the order in which [resolveVersion]
    tests them does not matter. *)
Theorem specifier_kinds_are_exclusive (v : string) :
  (isSpecificVersion v = true ->
   isVersionRange v = false /\ v <> "latest" /\ v <> "")
  /\ (isVersionRange v = true ->
      isSpecificVersion v = false /\ v <> "latest" /\ v <> "").
Proof.
  split.
  - unfold isSpecificVersion.
    destruct (startsWithDigit v) eqn:Hstart; [|discriminate].
    intros _. destruct v as [|c rest]; [discriminate|]. simpl in Hstart.
    destruct (digit_is_no_delimiter c Hstart) as [Hb Hp].
    split; [|split].
    + unfold isVersionRange, rangePatterns. simpl. now rewrite Hb, Hp.
    + intros [= -> _]. discriminate.
    + discriminate.
  - intros H. destruct (isVersionRange_starts v H) as (c & rest & -> & Hc).
    split; [|split].
    + unfold isSpecificVersion. simpl.
      destruct Hc as [-> | ->]; reflexivity.
    + destruct Hc as [-> | ->]; discriminate.
    + discriminate.
Qed.

(** X15.  The version validator of the tool layer and the resolver see
    specifiers differently: every specific version passes
    [validateVersion], and no range does. *)
Theorem validateVersion_against_specifier_kinds (v : string) :
  (isSpecificVersion v = true -> validateVersion v = true)
  /\ (isVersionRange v = true -> validateVersion v = false).
Proof.
  split.
  - unfold isSpecificVersion.
    destruct (startsWithDigit v) eqn:Hstart; [|discriminate].
    destruct (numericPrefix_parts v) as [Happ Hall].
    destruct (numericPrefix v) as [p r]. simpl in *.
    intros Hrest.
    assert (Hids : Js.all isIdChar v = true).
    { rewrite <- Happ, all_app.
      rewrite (all_weaken _ _ p digitOrDot_isIdChar Hall). simpl.
      destruct r as [|c q]; [reflexivity|].
      apply andb_true_iff in Hrest. destruct Hrest as [Hrest Hq].
      apply andb_true_iff in Hrest. destruct Hrest as [Hc _].
      apply Ascii.eqb_eq in Hc. subst c. simpl.
      now apply (all_weaken _ _ q suffixChar_isIdChar). }
    unfold validateVersion, matchesIdPattern.
    destruct v as [|c rest]; [discriminate|]. cbn [Js.truthy negb andb].
    destruct (String.eqb (String c rest) "latest"); [reflexivity|].
    exact Hids.
  - intros H. destruct (isVersionRange_starts v H) as (c & rest & -> & Hc).
    unfold validateVersion, matchesIdPattern.
    destruct Hc as [-> | ->]; reflexivity.
Qed.

Section Resolution.

Variable localeCompare : string -> string -> Z.
Variable getLatestVersion : string -> string -> Outcome string.
Variable versionExists : string -> string -> string -> Outcome bool.
Variable getVersions : string -> string -> Outcome (list string).

Abbreviation resolve :=
  (resolveVersion localeCompare getLatestVersion versionExists getVersions).

(** X16.  A specifier that is neither [latest], nor empty, nor a range
    resolves to itself or fails: [resolveVersion] returns the specifier
    when the registry says the version exists, fails with
    [VersionNotFoundError] naming the coordinate and the specifier when it
    says it does not, and lets the registry's own error through; it never
    returns another version. *)
Theorem resolveVersion_of_exact_specifier
    (groupId artifactId versionSpec : string) :
  versionSpec <> "latest" ->
  versionSpec <> "" ->
  isVersionRange versionSpec = false ->
  (forall v, resolve groupId artifactId versionSpec = Returned v ->
             v = versionSpec
             /\ versionExists groupId artifactId versionSpec = Returned true)
  /\ (versionExists groupId artifactId versionSpec = Returned true ->
      resolve groupId artifactId versionSpec = Returned versionSpec)
  /\ (versionExists groupId artifactId versionSpec = Returned false ->
      resolve groupId artifactId versionSpec
      = Threw (ThrownMcp
                 (VersionNotFoundError (groupId ++ ":" ++ artifactId)
                    versionSpec)))
  /\ (forall e, versionExists groupId artifactId versionSpec = Threw e ->
                resolve groupId artifactId versionSpec = Threw e).
Proof.
  intros Hlatest Hempty Hrange.
  assert (Hresolve : resolve groupId artifactId versionSpec
                     = verifyExists versionExists groupId artifactId
                         versionSpec).
  { unfold resolveVersion. rewrite Hrange.
    destruct (String.eqb_spec versionSpec "latest"); [contradiction|].
    destruct versionSpec; [contradiction|]. simpl.
    now destruct (isSpecificVersion _). }
  rewrite Hresolve. unfold verifyExists.
  destruct (versionExists groupId artifactId versionSpec) as [[|]|e];
    repeat split; try discriminate; try congruence.
Qed.

(** X17.  [getLatestStableVersion] returns the first version of the list
    that is not a pre-release, every version before it being one; when
    every version is a pre-release it returns the first version of the
    list, and [undefined] when the list is empty. *)
Theorem getLatestStableVersion_first_stable
    (groupId artifactId : string) (versions : list string) :
  getVersions groupId artifactId = Returned versions ->
  ((exists v, In v versions /\ isPreRelease v = false) ->
   exists before first after,
     versions = (before ++ first :: after)%list
     /\ (forall u, In u before -> isPreRelease u = true)
     /\ isPreRelease first = false
     /\ getLatestStableVersion getVersions groupId artifactId
        = Returned (Some first))
  /\ ((forall v, In v versions -> isPreRelease v = true) ->
      getLatestStableVersion getVersions groupId artifactId
      = Returned (nth_error versions 0))
  /\ (versions = [] ->
      getLatestStableVersion getVersions groupId artifactId
      = Returned None).
Proof.
  intros Hget. unfold getLatestStableVersion. rewrite Hget.
  split; [|split].
  - intros [v [Hin Hv]].
    destruct (filter_first_match (fun u => negb (isPreRelease u)) versions)
      as (before & first & after & Hl & Hbefore & Hfirst & Hfilter).
    { exists v. split; [assumption | now rewrite Hv]. }
    exists before, first, after. split; [exact Hl|]. split.
    + intros u Hu. specialize (Hbefore u Hu).
      now destruct (isPreRelease u).
    + split; [now destruct (isPreRelease first)|]. now rewrite Hfilter.
  - intros Hall.
    rewrite (filter_no_match (fun u => negb (isPreRelease u)) versions);
      [reflexivity|].
    intros u Hu. now rewrite (Hall u Hu).
  - intros ->. reflexivity.
Qed.

End Resolution.

Lemma resolveVersion_of_exact_specifier_witness :
  let getLatestVersion := fun _ _ : string => Returned "2.0.0" in
  let versionExists := fun _ _ version : string =>
    Returned (String.eqb version "1.2.3") in
  let getVersions := fun _ _ : string => Returned ["2.0.0"; "1.2.3"] in
  resolveVersion codeUnitCompare getLatestVersion versionExists getVersions
    "com.example" "test-artifact" "9.9.9"
  = Threw (ThrownMcp
             (VersionNotFoundError "com.example:test-artifact" "9.9.9")).
Proof.
  intros getLatestVersion versionExists getVersions.
  assert (H1 : "9.9.9" <> "latest") by discriminate.
  assert (H2 : "9.9.9" <> "") by discriminate.
  destruct (resolveVersion_of_exact_specifier codeUnitCompare
              getLatestVersion versionExists getVersions
              "com.example" "test-artifact" "9.9.9" H1 H2 eq_refl)
    as (_ & _ & Hmissing & _).
  now apply Hmissing.
Defined.

Lemma getLatestStableVersion_first_stable_witness :
  let getVersions := fun _ _ : string =>
    Returned ["2.0.0-SNAPSHOT"; "1.9.0-rc1"] in
  getLatestStableVersion getVersions "com.example" "test-artifact"
  = Returned (Some "2.0.0-SNAPSHOT").
Proof.
  intros getVersions.
  destruct (getLatestStableVersion_first_stable getVersions
              "com.example" "test-artifact"
              ["2.0.0-SNAPSHOT"; "1.9.0-rc1"] eq_refl)
    as (_ & Hnone & _).
  apply Hnone. intros v Hin.
  repeat (destruct Hin as [<-|Hin]; [reflexivity|]). contradiction.
Defined.

End SpecifierFacts.

(** ** Pre-release detection *)

Module PreReleaseFacts.

Import VersionResolver.

Lemma lowerChar_digitOrDot (c : ascii) :
  MavenCentralApi.isDigitOrDot c = true -> Js.lowerChar c = c.
Proof.
  destruct c as [[] [] [] [] [] [] [] []]; vm_compute;
    try discriminate; reflexivity.
Qed.

Lemma lowerChar_idempotent (c : ascii) :
  Js.lowerChar (Js.lowerChar c) = Js.lowerChar c.
Proof. destruct c as [[] [] [] [] [] [] [] []]; reflexivity. Qed.

Lemma toLowerCase_idempotent (s : string) :
  Js.toLowerCase (Js.toLowerCase s) = Js.toLowerCase s.
Proof.
  induction s as [|c s IH]; simpl; [reflexivity|].
  now rewrite lowerChar_idempotent, IH.
Qed.

Lemma toLowerCase_app (a b : string) :
  Js.toLowerCase (a ++ b) = Js.toLowerCase a ++ Js.toLowerCase b.
Proof. induction a as [|c a IH]; simpl; [reflexivity | now rewrite IH]. Qed.

Lemma toLowerCase_digitOrDot (s : string) :
  Js.all MavenCentralApi.isDigitOrDot s = true -> Js.toLowerCase s = s.
Proof.
  induction s as [|c s IH]; simpl; [reflexivity|].
  intros H. apply andb_true_iff in H. destruct H as [Hc Hs].
  now rewrite (lowerChar_digitOrDot c Hc), IH.
Qed.

Lemma includes_letter_absent (s : string) : forall (k : ascii) (rest : string),
  Js.all MavenCentralApi.isDigitOrDot s = true ->
  MavenCentralApi.isDigitOrDot k = false ->
  Js.includes s (String k rest) = false.
Proof.
  induction s as [|c s IH]; intros k rest Hs Hk; [reflexivity|].
  simpl in Hs. apply andb_true_iff in Hs. destruct Hs as [Hc Hs].
  cbn [Js.includes String.prefix].
  destruct (ascii_dec k c) as [->|_]; [congruence|].
  simpl. now apply IH.
Qed.

Lemma prefix_app (n : string) : forall s b,
  String.prefix n s = true -> String.prefix n (s ++ b) = true.
Proof.
  induction n as [|k n IH]; intros [|c s] b H; simpl in *;
    try reflexivity; try discriminate.
  - now destruct b.
  - destruct (ascii_dec k c); [now apply IH | discriminate].
Qed.

Lemma includes_app_after (s n b : string) :
  Js.includes s n = true -> Js.includes (s ++ b) n = true.
Proof.
  induction s as [|c s IH]; intros H.
  - cbn [Js.includes] in H. rewrite orb_false_r in H.
    destruct n; [|discriminate]. now destruct b.
  - cbn [Js.includes] in H.
    change (String c s ++ b) with (String c (s ++ b)).
    cbn [Js.includes].
    apply orb_true_iff in H. destruct H as [H|H].
    + change (String c (s ++ b)) with (String c s ++ b).
      now rewrite (prefix_app n (String c s) b H).
    + rewrite (IH H). apply orb_true_r.
Qed.

Lemma includes_app_before (a s n : string) :
  Js.includes s n = true -> Js.includes (a ++ s) n = true.
Proof.
  intros H. induction a as [|c a IH]; [exact H|].
  change (String c a ++ s) with (String c (a ++ s)).
  cbn [Js.includes]. rewrite IH. apply orb_true_r.
Qed.

(** X18.  A version made of digits and dots only is never a pre-release:
    every keyword starts with a letter. *)
Theorem numeric_version_is_stable (version : string) :
  Js.all MavenCentralApi.isDigitOrDot version = true ->
  isPreRelease version = false.
Proof.
  intros H. unfold isPreRelease, preReleaseKeywords.
  rewrite (toLowerCase_digitOrDot version H). cbn [existsb].
  repeat (rewrite includes_letter_absent; [|exact H|reflexivity]).
  reflexivity.
Qed.

(** X19.  Pre-release detection looks for a keyword anywhere and in any
    case: a version that contains a pre-release version is a pre-release,
    whatever stands before and after it, and lowering the case of a version
    does not change the verdict. *)
Theorem isPreRelease_anywhere_any_case (version : string) :
  (isPreRelease version = true ->
   forall before after, isPreRelease (before ++ version ++ after) = true)
  /\ isPreRelease (Js.toLowerCase version) = isPreRelease version.
Proof.
  split.
  - unfold isPreRelease. intros H before after.
    apply existsb_exists in H. destruct H as [keyword [Hin Hinc]].
    apply existsb_exists. exists keyword. split; [exact Hin|].
    rewrite !toLowerCase_app.
    apply includes_app_before. now apply includes_app_after.
  - unfold isPreRelease. now rewrite toLowerCase_idempotent.
Qed.

Lemma numeric_version_is_stable_witness :
  isPreRelease "1.8.0" = false.
Proof. apply numeric_version_is_stable. reflexivity. Defined.

End PreReleaseFacts.

(** ** More on version ordering *)

Module OrderingFacts.

Import VersionResolver VersionFacts.

Lemma startsWithDigit_app (v s : string) :
  startsWithDigit v = true -> startsWithDigit (v ++ s) = true.
Proof. destruct v; [discriminate | trivial]. Qed.

(** A purely numeric version keeps its numeric prefix when a qualifier
    that starts with neither a digit nor a dot is appended. *)
Lemma numericPrefix_qualified (v : string) : forall (c : ascii) (q : string),
  numericPrefix v = (v, "") ->
  MavenCentralApi.isDigitOrDot c = false ->
  numericPrefix (v ++ String c q) = (v, String c q).
Proof.
  induction v as [|d v IH]; intros c q Hv Hc.
  - unfold MavenCentralApi.isDigitOrDot in Hc.
    apply orb_false_iff in Hc. destruct Hc as [Hdigit Hdot].
    simpl. now rewrite Hdigit, Hdot.
  - change (String d v ++ String c q) with (String d (v ++ String c q)).
    simpl in Hv |- *.
    destruct (Js.isDigit d).
    + destruct (numericPrefix v) as [p r] eqn:Hp.
      injection Hv as -> ->. now rewrite (IH c q eq_refl Hc).
    + destruct (Ascii.eqb d "." && startsWithDigit v) eqn:Hdot.
      * destruct (numericPrefix v) as [p r] eqn:Hp.
        injection Hv as -> ->.
        apply andb_true_iff in Hdot. destruct Hdot as [Hd Hstart].
        rewrite Hd, (startsWithDigit_app _ _ Hstart). simpl.
        now rewrite (IH c q eq_refl Hc).
      * discriminate Hv.
Qed.

(** ... and stays purely numeric when [.0] is appended. *)
Lemma numericPrefix_padded (v : string) :
  v <> "" ->
  numericPrefix v = (v, "") ->
  numericPrefix (v ++ ".0") = (v ++ ".0", "").
Proof.
  induction v as [|d v IH]; [congruence|]. intros _ Hv.
  change (String d v ++ ".0") with (String d (v ++ ".0")).
  simpl in Hv |- *.
  destruct (Js.isDigit d).
  - destruct (numericPrefix v) as [p r] eqn:Hp. injection Hv as -> ->.
    destruct v as [|d' v]; [reflexivity|].
    now rewrite IH.
  - destruct (Ascii.eqb d "." && startsWithDigit v) eqn:Hdot;
      [|discriminate Hv].
    destruct (numericPrefix v) as [p r] eqn:Hp. injection Hv as -> ->.
    apply andb_true_iff in Hdot. destruct Hdot as [Hd Hstart].
    rewrite Hd, (startsWithDigit_app _ _ Hstart). simpl.
    destruct v as [|d' v]; [discriminate|].
    now rewrite IH.
Qed.

Lemma split_nonempty (c : ascii) (s : string) : Js.split c s <> [].
Proof.
  destruct s as [|d s]; simpl; [discriminate|].
  destruct (Ascii.eqb d c); [discriminate|].
  destruct (Js.split c s); discriminate.
Qed.

(** Splitting at a separator splits on both sides of it. *)
Lemma split_app (c : ascii) (a b : string) :
  Js.split c (a ++ String c b) = (Js.split c a ++ Js.split c b)%list.
Proof.
  induction a as [|d a IH]; simpl.
  - now rewrite Ascii.eqb_refl.
  - destruct (Ascii.eqb d c); [now rewrite IH|].
    rewrite IH. pose proof (split_nonempty c a).
    destruct (Js.split c a); [congruence | reflexivity].
Qed.

Lemma nth_padded (numbers : list Z) (i : nat) :
  nth i (numbers ++ [0])%list 0 = nth i numbers 0.
Proof.
  destruct (Nat.lt_ge_cases i (List.length numbers)).
  - now apply app_nth1.
  - rewrite (nth_overflow numbers) by assumption.
    rewrite app_nth2 by assumption.
    destruct (i - List.length numbers)%nat as [|[|n]]; reflexivity.
Qed.

Lemma compareNumbers_padded (numbers : list Z) :
  compareNumbers numbers (numbers ++ [0])%list = None.
Proof.
  pose proof (compareNumbers_first_difference numbers (numbers ++ [0])%list)
    as Hspec.
  destruct (compareNumbers numbers (numbers ++ [0])%list) as [d|];
    [|reflexivity].
  destruct Hspec as (i & _ & Hne & _). now rewrite nth_padded in Hne.
Qed.

Section Order.

Variable localeCompare : string -> string -> Z.

(** X20.  A release outranks every qualified build of the same numbers:
    for a version [v] that is purely numeric and a qualifier that starts
    with neither a digit nor a dot and holds no line terminator,
    [compareVersions] puts [v] above [v] followed by the qualifier,
    without consulting the collation. *)
Theorem release_outranks_qualified_build
    (v : string) (c : ascii) (q : string) :
  startsWithDigit v = true ->
  numericPrefix v = (v, "") ->
  MavenCentralApi.isDigitOrDot c = false ->
  Js.all (fun x => negb (Js.isLineTerminator x)) (String c q) = true ->
  compareVersions localeCompare v (v ++ String c q) = 1
  /\ compareVersions localeCompare (v ++ String c q) v = -1.
Proof.
  intros Hstart Hv Hc Hline.
  assert (Hplain : parseVersion v
                   = {| numbers := map Number (Js.split "." v);
                        suffix := "" |}).
  { unfold parseVersion, matchVersion. now rewrite Hstart, Hv. }
  assert (Hqual : parseVersion (v ++ String c q)
                  = {| numbers := map Number (Js.split "." v);
                       suffix := String c q |}).
  { unfold parseVersion, matchVersion.
    rewrite (startsWithDigit_app _ _ Hstart).
    rewrite (numericPrefix_qualified v c q Hv Hc). now rewrite Hline. }
  unfold compareVersions. rewrite Hplain, Hqual.
  unfold compareNumbers. cbn [numbers suffix].
  rewrite compareAt_same. split; reflexivity.
Qed.

(** X21.  Trailing zero components do not count: a purely numeric version
    [v] and [v] followed by [.0] compare as equal. *)
Theorem trailing_zero_component_is_ignored (v : string) :
  startsWithDigit v = true ->
  numericPrefix v = (v, "") ->
  compareVersions localeCompare v (v ++ ".0") = 0
  /\ compareVersions localeCompare (v ++ ".0") v = 0.
Proof.
  intros Hstart Hv.
  assert (Hne : v <> "") by (destruct v; [discriminate | congruence]).
  assert (Hplain : parseVersion v
                   = {| numbers := map Number (Js.split "." v);
                        suffix := "" |}).
  { unfold parseVersion, matchVersion. now rewrite Hstart, Hv. }
  assert (Hpad : parseVersion (v ++ ".0")
                 = {| numbers := (map Number (Js.split "." v) ++ [0])%list;
                      suffix := "" |}).
  { unfold parseVersion, matchVersion.
    rewrite (startsWithDigit_app _ _ Hstart).
    rewrite (numericPrefix_padded v Hne Hv). cbn [Js.all].
    change (v ++ ".0") with (v ++ String "." "0").
    now rewrite split_app, map_app. }
  unfold compareVersions. rewrite Hplain, Hpad. cbn [numbers suffix].
  rewrite (compareNumbers_swap (map Number (Js.split "." v))
             (map Number (Js.split "." v) ++ [0])%list).
  rewrite compareNumbers_padded. split; reflexivity.
Qed.

End Order.

(** *** The comparator of the registry client *)

Lemma parseVersion_length (version : string) :
  List.length (MavenCentralApi.parseVersion version) = 3%nat.
Proof.
  unfold MavenCentralApi.parseVersion.
  rewrite length_firstn, length_app. cbn [List.length]. lia.
Qed.

Lemma api_compare_numbers (a b : string) :
  MavenCentralApi.compareVersions a b
  = match compareNumbers (MavenCentralApi.parseVersion a)
            (MavenCentralApi.parseVersion b) with
    | Some difference => difference
    | None => 0
    end.
Proof.
  unfold MavenCentralApi.compareVersions, compareNumbers.
  now rewrite !parseVersion_length.
Qed.

Lemma keep_idempotent (p : ascii -> bool) (s : string) :
  Js.keep p (Js.keep p s) = Js.keep p s.
Proof.
  induction s as [|c s IH]; simpl; [reflexivity|].
  destruct (p c) eqn:Hp; simpl; [now rewrite Hp, IH | exact IH].
Qed.

(** X22.  The comparator [getVersions] sorts with is a consistent
    comparator: swapping its arguments flips the sign, a version equals
    itself, and [>=] is transitive.  It reads digits and dots only: the
    letters and hyphens of a qualifier do not take part. *)
Theorem api_compareVersions_is_consistent (a b c : string) :
  Z.sgn (MavenCentralApi.compareVersions a b)
  = - Z.sgn (MavenCentralApi.compareVersions b a)
  /\ MavenCentralApi.compareVersions a a = 0
  /\ (MavenCentralApi.compareVersions a b >= 0 ->
      MavenCentralApi.compareVersions b c >= 0 ->
      MavenCentralApi.compareVersions a c >= 0)
  /\ MavenCentralApi.compareVersions a b
     = MavenCentralApi.compareVersions
         (Js.keep MavenCentralApi.isDigitOrDot a)
         (Js.keep MavenCentralApi.isDigitOrDot b).
Proof.
  split; [|split; [|split]].
  - rewrite !api_compare_numbers.
    rewrite (compareNumbers_swap (MavenCentralApi.parseVersion a)).
    destruct (compareNumbers _ _); simpl; lia.
  - unfold MavenCentralApi.compareVersions. now rewrite compareAt_same.
  - rewrite !api_compare_numbers.
    pose proof (compareNumbers_chain (MavenCentralApi.parseVersion a)
                  (MavenCentralApi.parseVersion b)
                  (MavenCentralApi.parseVersion c)) as Hchain.
    destruct (compareNumbers (MavenCentralApi.parseVersion a)
                (MavenCentralApi.parseVersion b)) as [d1|],
             (compareNumbers (MavenCentralApi.parseVersion b)
                (MavenCentralApi.parseVersion c)) as [d2|].
    + intros H1 H2. destruct (Hchain H1 H2) as (d & -> & Hd). lia.
    + rewrite Hchain. intros H1 _. exact H1.
    + rewrite Hchain. intros _ H2. exact H2.
    + rewrite Hchain. lia.
  - unfold MavenCentralApi.compareVersions, MavenCentralApi.parseVersion.
    now rewrite !keep_idempotent.
Qed.

Lemma release_outranks_qualified_build_witness :
  compareVersions codeUnitCompare "1.0.0" "1.0.0-SNAPSHOT" = 1
  /\ compareVersions codeUnitCompare "1.0.0-SNAPSHOT" "1.0.0" = -1.
Proof.
  apply (release_outranks_qualified_build codeUnitCompare
           "1.0.0" "-" "SNAPSHOT"); reflexivity.
Defined.

Lemma trailing_zero_component_is_ignored_witness :
  compareVersions codeUnitCompare "1.0" "1.0.0" = 0
  /\ compareVersions codeUnitCompare "1.0.0" "1.0" = 0.
Proof.
  apply (trailing_zero_component_is_ignored codeUnitCompare "1.0");
    reflexivity.
Defined.

End OrderingFacts.

(** ** Validation of coordinates, versions and queries *)

Module ValidatorFacts.

Import ErrorHandler Validators VersionResolver.

Lemma append_assoc (a b c : string) : (a ++ b) ++ c = a ++ b ++ c.
Proof. induction a as [|x a IH]; simpl; [reflexivity | now rewrite IH]. Qed.

Lemma split_without (c : ascii) (s : string) :
  Js.all (fun x => negb (Ascii.eqb x c)) s = true -> Js.split c s = [s].
Proof.
  induction s as [|d s IH]; simpl; [reflexivity|]. intros H.
  apply andb_true_iff in H. destruct H as [Hd Hs].
  apply negb_true_iff in Hd. now rewrite Hd, (IH Hs).
Qed.

(** [s.split(c).join(c)] is [s]. *)
Lemma join_split (c : ascii) (s : string) :
  Js.join (String c "") (Js.split c s) = s.
Proof.
  induction s as [|d s IH]; [reflexivity|].
  pose proof (OrderingFacts.split_nonempty c s) as Hne.
  cbn [Js.split].
  destruct (Ascii.eqb_spec d c) as [->|_];
    destruct (Js.split c s) as [|piece pieces]; try congruence.
  - cbn [Js.join]. simpl. now rewrite <- IH.
  - destruct pieces as [|q qs]; cbn [Js.join] in *; now rewrite <- IH.
Qed.

Lemma isIdChar_not_space (c : ascii) :
  isIdChar c = true -> Js.isSpace c = false.
Proof.
  destruct c as [[] [] [] [] [] [] [] []]; vm_compute; congruence.
Qed.

Lemma trimEnd_keeps (c : ascii) (s : string) :
  Js.isSpace c = false -> Js.trimEnd (String c s) = String c (Js.trimEnd s).
Proof.
  intros Hc. cbn [Js.trimEnd]. rewrite Hc. now destruct (Js.trimEnd s).
Qed.

(** [trimEnd] only touches what follows the last character that is not
    white space. *)
Lemma trimEnd_app (x : string) (c : ascii) (s : string) :
  Js.isSpace c = false ->
  Js.trimEnd (x ++ String c s) = x ++ String c (Js.trimEnd s).
Proof.
  intros Hc. induction x as [|d x IH]; [now apply trimEnd_keeps|].
  change (String d x ++ String c s) with (String d (x ++ String c s)).
  cbn [Js.trimEnd]. rewrite IH. now destruct x.
Qed.

Lemma trimEnd_no_space (s : string) :
  Js.all (fun c => negb (Js.isSpace c)) s = true -> Js.trimEnd s = s.
Proof.
  induction s as [|c s IH]; [reflexivity|]. cbn [Js.all]. intros H.
  apply andb_true_iff in H. destruct H as [Hc Hs].
  apply negb_true_iff in Hc. now rewrite (trimEnd_keeps c s Hc), (IH Hs).
Qed.

Lemma trimEnd_idempotent (s : string) :
  Js.trimEnd (Js.trimEnd s) = Js.trimEnd s.
Proof.
  induction s as [|c s IH]; [reflexivity|]. cbn [Js.trimEnd].
  destruct (Js.trimEnd s) as [|d r] eqn:Hs.
  - destruct (Js.isSpace c) eqn:Hc; [reflexivity|].
    cbn [Js.trimEnd]. now rewrite Hc.
  - cbn [Js.trimEnd] in IH |- *.
    destruct (match Js.trimEnd r with
              | "" => if Js.isSpace d then "" else String d ""
              | String a s0 => String d (String a s0)
              end); [discriminate IH | now rewrite IH].
Qed.

Lemma trimStart_head (s : string) :
  Js.trimStart s = ""
  \/ exists c r, Js.trimStart s = String c r /\ Js.isSpace c = false.
Proof.
  induction s as [|c s IH]; [now left|]. cbn [Js.trimStart].
  destruct (Js.isSpace c) eqn:Hc; [exact IH|].
  right. now exists c, s.
Qed.

Lemma trim_idempotent (s : string) : Js.trim (Js.trim s) = Js.trim s.
Proof.
  unfold Js.trim.
  destruct (trimStart_head s) as [-> | (c & r & -> & Hc)]; [reflexivity|].
  rewrite (trimEnd_keeps c r Hc). cbn [Js.trimStart]. rewrite Hc.
  rewrite <- (trimEnd_keeps c r Hc). apply trimEnd_idempotent.
Qed.

Lemma valid_id_chars (s : string) :
  matchesIdPattern s = true -> Js.truthy s = true /\ Js.all isIdChar s = true.
Proof. unfold matchesIdPattern. intros H. now apply andb_true_iff in H. Qed.

Lemma valid_group (g : string) :
  isValidGroupId g = true <-> matchesIdPattern g = true.
Proof.
  unfold isValidGroupId, matchesIdPattern.
  destruct g; simpl; [tauto|]. now rewrite andb_true_r.
Qed.

Lemma valid_artifact (a : string) :
  isValidArtifactId a = true <-> matchesIdPattern a = true.
Proof.
  unfold isValidArtifactId, matchesIdPattern.
  destruct a; simpl; [tauto|]. now rewrite andb_true_r.
Qed.

(** What [validatePackageName] does once the input is known to be truthy
    and its trimmed form is at hand. *)
Lemma validatePackageName_of_trimmed (packageName g a : string) :
  Js.trim packageName = g ++ ":" ++ a ->
  matchesIdPattern g = true ->
  matchesIdPattern a = true ->
  validatePackageName packageName = Returned (g, a).
Proof.
  intros Htrim Hg Ha. unfold validatePackageName.
  destruct packageName as [|c p]; [now destruct g|].
  cbn [Js.truthy negb]. rewrite Htrim.
  replace (Js.truthy (g ++ ":" ++ a)) with true by now destruct g.
  cbn [negb].
  change (g ++ ":" ++ a) with (g ++ String ":" a).
  rewrite OrderingFacts.split_app.
  rewrite (split_without ":" g (KeyFacts.valid_id_has_no_colon g Hg)).
  rewrite (split_without ":" a (KeyFacts.valid_id_has_no_colon a Ha)).
  cbn [app].
  destruct (valid_id_chars g Hg) as [Hgt _].
  destruct (valid_id_chars a Ha) as [Hat _].
  rewrite Hgt, Hat.
  rewrite (proj2 (valid_group g) Hg), (proj2 (valid_artifact a) Ha).
  reflexivity.
Qed.

(** X23.  [validatePackageName] accepts exactly the inputs whose trimmed
    form is a valid group id, one colon and a valid artifact id, and
    returns the two ids; every rejection is an [InvalidPackageNameError]
    that carries the input as it was given, untrimmed. *)
Theorem validatePackageName_accepts_exactly (packageName g a : string) :
  (validatePackageName packageName = Returned (g, a)
   <-> Js.trim packageName = g ++ ":" ++ a
       /\ isValidGroupId g = true /\ isValidArtifactId a = true)
  /\ (forall e, validatePackageName packageName = Threw e ->
        e = ThrownMcp (InvalidPackageNameError packageName)).
Proof.
  split; [split|].
  - unfold validatePackageName.
    destruct (Js.truthy packageName); cbn [negb]; [|discriminate].
    destruct (Js.truthy (Js.trim packageName)); cbn [negb]; [|discriminate].
    pose proof (join_split ":" (Js.trim packageName)) as Hjoin.
    destruct (Js.split ":" (Js.trim packageName))
      as [|g0 [|a0 [|extra more]]]; try discriminate.
    destruct (Js.truthy g0); cbn [negb orb]; [|discriminate].
    destruct (isValidGroupId g0) eqn:Hg; cbn [negb]; [|discriminate].
    destruct (Js.truthy a0); cbn [negb orb]; [|discriminate].
    destruct (isValidArtifactId a0) eqn:Ha; cbn [negb]; [|discriminate].
    intros H. injection H as <- <-. cbn [Js.join] in Hjoin.
    now rewrite <- Hjoin.
  - intros (Htrim & Hg & Ha).
    apply validatePackageName_of_trimmed;
      [exact Htrim | now apply valid_group | now apply valid_artifact].
  - unfold validatePackageName. intros e.
    destruct (Js.truthy packageName); cbn [negb]; [|congruence].
    destruct (Js.truthy (Js.trim packageName)); cbn [negb]; [|congruence].
    destruct (Js.split ":" (Js.trim packageName))
      as [|g0 [|a0 [|extra more]]]; try congruence.
    destruct (negb (Js.truthy g0) || negb (isValidGroupId g0));
      [congruence|].
    destruct (negb (Js.truthy a0) || negb (isValidArtifactId a0));
      congruence.
Qed.

(** X24.  Coordinates formatted without a version are read back by
    [validatePackageName] as the same two ids; formatted with any
    non-empty version they are rejected, for the text then has three
    parts. *)
Theorem coordinates_round_trip (g a : string) :
  isValidGroupId g = true ->
  isValidArtifactId a = true ->
  validatePackageName (formatMavenCoordinates g a None) = Returned (g, a)
  /\ (forall v, Js.truthy v = true ->
        validatePackageName (formatMavenCoordinates g a (Some v))
        = Threw (ThrownMcp (InvalidPackageNameError
                              (formatMavenCoordinates g a (Some v))))).
Proof.
  intros Hg Ha. apply valid_group in Hg. apply valid_artifact in Ha.
  destruct (valid_id_chars g Hg) as [Hgt Hgc].
  destruct (valid_id_chars a Ha) as [Hat Hac].
  assert (Hgs : Js.all (fun c => negb (Js.isSpace c)) g = true).
  { apply (SpecifierFacts.all_weaken isIdChar); [|exact Hgc].
    intros c Hc. now rewrite (isIdChar_not_space c Hc). }
  assert (Has : Js.all (fun c => negb (Js.isSpace c)) a = true).
  { apply (SpecifierFacts.all_weaken isIdChar); [|exact Hac].
    intros c Hc. now rewrite (isIdChar_not_space c Hc). }
  assert (Hstart : forall rest, Js.trimStart (g ++ rest) = g ++ rest).
  { intros rest. destruct g as [|c g]; [discriminate|].
    cbn [Js.all] in Hgs. apply andb_true_iff in Hgs.
    destruct Hgs as [Hc _]. apply negb_true_iff in Hc.
    change (String c g ++ rest) with (String c (g ++ rest)).
    cbn [Js.trimStart]. now rewrite Hc. }
  split.
  - apply validatePackageName_of_trimmed; [|exact Hg|exact Ha].
    unfold formatMavenCoordinates, Js.trim. rewrite Hstart.
    apply trimEnd_no_space.
    rewrite SpecifierFacts.all_app, Hgs.
    change (":" ++ a) with (String ":" a). cbn [Js.all]. now rewrite Has.
  - intros v Hv. unfold formatMavenCoordinates. rewrite Hv.
    set (text := (g ++ ":" ++ a) ++ ":" ++ v).
    assert (Htrim : Js.trim text
                    = g ++ String ":" (a ++ String ":" (Js.trimEnd v))).
    { unfold text, Js.trim. rewrite append_assoc, Hstart.
      rewrite <- append_assoc.
      change (":" ++ v) with (String ":" v).
      rewrite trimEnd_app by reflexivity.
      now rewrite append_assoc. }
    unfold validatePackageName.
    replace (Js.truthy text) with true
      by (unfold text; now destruct g).
    rewrite Htrim.
    replace (Js.truthy (g ++ String ":" (a ++ String ":" (Js.trimEnd v))))
      with true by now destruct g.
    cbn [negb].
    rewrite !OrderingFacts.split_app.
    rewrite (split_without ":" g (KeyFacts.valid_id_has_no_colon g Hg)).
    rewrite (split_without ":" a (KeyFacts.valid_id_has_no_colon a Ha)).
    pose proof (OrderingFacts.split_nonempty ":" (Js.trimEnd v)) as Hne.
    destruct (Js.split ":" (Js.trimEnd v)); [congruence | reflexivity].
Qed.

Lemma keep_fixed (p : ascii -> bool) (s : string) :
  Js.keep p s = s <-> Js.all p s = true.
Proof.
  split.
  - intros H. rewrite <- H. apply KeyFacts.all_keep.
  - induction s as [|c s IH]; [reflexivity|]. cbn [Js.all Js.keep].
    intros H. apply andb_true_iff in H. destruct H as [Hc Hs].
    now rewrite Hc, (IH Hs).
Qed.

(** X25.  [sanitizeString] is idempotent, leaves exactly the strings made
    of id characters unchanged, and what it returns, unless empty, passes
    the group id, artifact id and version checks. *)
Theorem sanitizeString_yields_valid_ids (input : string) :
  sanitizeString (sanitizeString input) = sanitizeString input
  /\ (sanitizeString input = input <-> Js.all isIdChar input = true)
  /\ isValidGroupId (sanitizeString input)
     = Js.truthy (sanitizeString input)
  /\ isValidArtifactId (sanitizeString input)
     = Js.truthy (sanitizeString input)
  /\ validateVersion (sanitizeString input)
     = Js.truthy (sanitizeString input).
Proof.
  unfold sanitizeString.
  pose proof (KeyFacts.all_keep isIdChar input) as Hall.
  split; [apply OrderingFacts.keep_idempotent|].
  split; [apply keep_fixed|].
  unfold isValidGroupId, isValidArtifactId, validateVersion,
    matchesIdPattern.
  rewrite Hall.
  destruct (Js.keep isIdChar input) as [|c s]; [now repeat split|].
  cbn [Js.truthy negb andb String.length Nat.ltb Nat.leb].
  repeat split. now destruct (String.eqb _ _).
Qed.

(** X26.  [validateSearchQuery] judges the trimmed query: surrounding
    white space changes nothing, and a query is accepted exactly when its
    trimmed form has between 1 and 500 code units. *)
Theorem validateSearchQuery_ignores_surrounding_space (query : string) :
  validateSearchQuery (Js.trim query) = validateSearchQuery query
  /\ (validateSearchQuery query = true
      <-> (1 <= String.length (Js.trim query) <= 500)%nat).
Proof.
  assert (Hverdict : forall q,
            validateSearchQuery q
            = (0 <? String.length (Js.trim q))%nat
              && (String.length (Js.trim q) <=? 500)%nat).
  { intros [|c q]; reflexivity. }
  split.
  - now rewrite !Hverdict, trim_idempotent.
  - rewrite Hverdict, andb_true_iff, Nat.ltb_lt, Nat.leb_le. lia.
Qed.

Lemma coordinates_round_trip_witness :
  validatePackageName
    (formatMavenCoordinates "org.springframework" "spring-core" None)
  = Returned ("org.springframework", "spring-core")
  /\ validatePackageName
       (formatMavenCoordinates "org.springframework" "spring-core"
          (Some "6.1.0"))
     = Threw (ThrownMcp
                (InvalidPackageNameError
                   "org.springframework:spring-core:6.1.0")).
Proof.
  destruct (coordinates_round_trip "org.springframework" "spring-core"
              eq_refl eq_refl) as [Hback Hversion].
  split; [exact Hback | exact (Hversion "6.1.0" eq_refl)].
Defined.

End ValidatorFacts.

(** ** The latest version and the latest stable version *)

Module LatestFacts.

Import ErrorHandler VersionResolver.

Section Latest.

Variable localeCompare : string -> string -> Z.
Variable versionExists : string -> string -> string -> Outcome bool.
Variable getVersions : string -> string -> Outcome (list string).

(** X27.  With the registry client's [getLatestVersion], the specifier
    [latest] resolves to the first listed version whether or not it is a
    pre-release, and [getLatestStableVersion] agrees with it exactly when
    that version is stable or no listed version is.  On an empty listing
    the first throws a [PackageNotFoundError] while the second returns
    [undefined]. *)
Theorem latest_against_latest_stable (groupId artifactId : string) :
  let latest :=
    resolveVersion localeCompare
      (MavenCentralApi.getLatestVersion getVersions)
      versionExists getVersions groupId artifactId "latest" in
  let stable := getLatestStableVersion getVersions groupId artifactId in
  (getVersions groupId artifactId = Returned [] ->
     latest = Threw (ThrownMcp
                       (PackageNotFoundError (groupId ++ ":" ++ artifactId)))
     /\ stable = Returned None)
  /\ (forall first later,
        getVersions groupId artifactId = Returned (first :: later) ->
        latest = Returned first
        /\ (stable = Returned (Some first)
            <-> isPreRelease first = false
                \/ forallb isPreRelease later = true)).
Proof.
  cbv zeta. unfold resolveVersion, MavenCentralApi.getLatestVersion,
    getLatestStableVersion.
  cbn [String.eqb Ascii.eqb Bool.eqb orb].
  split.
  - intros ->. split; reflexivity.
  - intros first later ->. split; [reflexivity|].
    cbn [filter]. destruct (isPreRelease first) eqn:Hfirst; cbn [negb].
    + destruct (filter (fun version => negb (isPreRelease version)) later)
        as [|w ws] eqn:Hfilter.
      * split; [intros _|reflexivity]. right.
        apply forallb_forall. intros u Hu.
        destruct (isPreRelease u) eqn:Hpre; [reflexivity|].
        assert (Hin : In u (filter (fun version =>
                                      negb (isPreRelease version)) later)).
        { apply filter_In. split; [exact Hu | now rewrite Hpre]. }
        rewrite Hfilter in Hin. destruct Hin.
      * assert (Hw : In w later /\ negb (isPreRelease w) = true).
        { apply (filter_In (fun version => negb (isPreRelease version))).
          rewrite Hfilter. now left. }
        destruct Hw as [Hin Hw]. apply negb_true_iff in Hw.
        split.
        -- intros H. injection H as ->. congruence.
        -- intros [H|H]; [discriminate|].
           rewrite forallb_forall in H. rewrite (H w Hin) in Hw.
           discriminate.
    + split; [intros _; now left | reflexivity].
Qed.

End Latest.

End LatestFacts.
